(** * winkb/tcp: the server core ([mytcp/tcp_server.go]) and the message
    router of the server's [main], embedded in Rocq.

    The Go program is a set of goroutines that share a [tcpServer] and, per
    accepted connection, a [TcpConn] with three unbuffered channels.  The
    embedding follows the source function by function:

    - data: [uint32] as [Z] with its wrap-around, byte slices as
      [list byte], the [sync.Map] registry as a [gmap] from ids to
      connection pointers, a heap of connection objects indexed by pointer;
    - sequential code as functions over a [world] (server fields, the
      application state the callbacks act on, and a log of the observable
      effects);
    - goroutines as program counters, and the scheduler as an interleaving
      step relation whose atomic steps are the channel, mutex and atomic
      operations of the source. *)

From Stdlib Require Import ZArith Lia.
From stdpp Require Import base option list gmap strings relations.

Local Open Scope Z_scope.

(** ** Basic data *)

Abbreviation bytes := (list Byte.byte).

(** A [*TcpConn]: the index of the connection object in the heap. *)
Definition ptr := nat.

(** Goroutine ids of the callers of the facade ([Send], [Broadcast],
    [Shutdown]). *)
Definition gid := nat.

Definition uint32_modulus : Z := 2 ^ 32.

(** [val += 1] on a [uint32]. *)
Definition uint32_incr (v : Z) : Z := (v + 1) mod uint32_modulus.

(** What [conn.conn.Read] can fail with, as [LoopRead] tells them apart:
    [err == io.EOF], [err.( *net.OpError )], anything else. *)
Inductive read_err := ErrEOF | ErrOpError | ErrOther.

Inductive read_result :=
| ReadOk (bt : bytes)
| ReadFail (e : read_err).

(** Who holds [l.lock].  A [sync.Mutex] records no owner; the owner is kept
    to say which critical section a step belongs to. *)
Inductive owner :=
| OwnAcceptor
| OwnSender (p : ptr)
| OwnShutdown (g : gid).

#[global] Instance owner_eq_dec : EqDecision owner.
Proof. solve_decision. Defined.

(** ** Unbuffered channels

    [make(chan T)]: a closed flag and the queue of goroutines blocked in a
    send, each with the value it offers. *)

Record chan (S T : Type) := Chan {
  ch_closed : bool;
  ch_sendq : list (S * T)
}.
Arguments Chan {S T} _ _.
Arguments ch_closed {S T} _.
Arguments ch_sendq {S T} _.

Definition make_chan {S T} : chan S T := Chan false [].

(** A receive that can proceed: it meets the first blocked sender, or the
    channel is closed and it yields the zero value ([None]).  [None] as a
    whole: the receive would block. *)
Definition chan_recv {S T} (ch : chan S T)
  : option (option (S * T) * chan S T) :=
  match ch_sendq ch with
  | sv :: q => Some (Some sv, Chan (ch_closed ch) q)
  | [] => if ch_closed ch then Some (None, ch) else None
  end.

(** [ch <- v] by sender [s]: panics on a closed channel ([None]), otherwise
    the sender parks in the queue until a receiver takes the value. *)
Definition chan_send {S T} (s : S) (v : T) (ch : chan S T)
  : option (chan S T) :=
  if ch_closed ch then None
  else Some (Chan false (ch_sendq ch ++ [(s, v)])).

(** [close(ch)]: panics on a closed channel ([None]). *)
Definition chan_close {S T} (ch : chan S T) : option (chan S T) :=
  if ch_closed ch then None else Some (Chan true (ch_sendq ch)).

(** The value a receive binds: the zero value ([nil]) on a closed channel. *)
Definition recv_bytes {S} (r : option (S * bytes)) : bytes :=
  match r with Some (_, v) => v | None => [] end.

(** ** Observable effects *)

Inductive panic_cause :=
| PanicCloseOfClosedChannel
| PanicSendOnClosedChannel
| PanicNilListener.

Inductive event :=
| EvRead (p : ptr) (r : read_result)       (* conn.conn.Read returned *)
| EvOutputSent (p : ptr) (bt : bytes)      (* conn.output <- bt completed *)
| EvOutputDrained (p : ptr)                (* LoopRead's case <-conn.output *)
| EvCloseSignal (p : ptr)                  (* close(conn.waitConn) *)
| EvCloseCallback (p : ptr) (isServer isClient : bool)
| EvHandelReceive (p : ptr) (bt : bytes)   (* l.handelReceive(conn, msg) *)
| EvReceiveCallback (p : ptr) (bt : bytes)
| EvLogErr (ctx : string)                  (* log.Err(errors.Wrap(err, ctx)) *)
| EvLogPrint (p : ptr) (msg : bytes)       (* log.Print("input id", ..) *)
| EvPrintln (what : string)                (* fmt.Println(..) *)
| EvWrite (p : ptr) (msg : bytes)          (* conn.conn.Write(msg), no error *)
| EvWriteErr (p : ptr) (msg : bytes)       (* conn.conn.Write(msg), error *)
| EvSockClose (p : ptr)                    (* v.conn.Close() *)
| EvListenerClose                          (* l.listener.Close() *)
| EvStopSet (g : gid)                      (* l.stop = 2 *)
| EvShutdownReturn (g : gid)
| EvSendReturn (g : gid)                   (* a caller's input <- v completed *)
| EvPanic (c : panic_cause).

(** ** The server object *)

Section Server.

(** The part of the application that the two callbacks read and write. *)
Context {A : Type}.

Definition CloseCallback := ptr → bool → bool → A → A.
Definition ReceiveCallback := ptr → bytes → A → A.

Record tcpServer := TcpServer {
  listener : option nat;
  closeCallback : option CloseCallback;
  receiveCallback : option ReceiveCallback;
  addr : string;
  conns : gmap Z ptr;
  lastId : Z;
  stop : Z;
  lock : option owner
}.

Definition NewTcpServer (port : string) : tcpServer :=
  {| listener := None;
     closeCallback := Some (λ _ _ _ a, a);
     receiveCallback := Some (λ _ _ a, a);
     addr := String.append ":" port;
     conns := ∅;
     lastId := 0;
     stop := 0;
     lock := None |}.

Definition OnReceive (f : option ReceiveCallback) (l : tcpServer) : tcpServer :=
  {| listener := listener l; closeCallback := closeCallback l;
     receiveCallback := f; addr := addr l; conns := conns l;
     lastId := lastId l; stop := stop l; lock := lock l |}.

Definition OnClose (f : option CloseCallback) (l : tcpServer) : tcpServer :=
  {| listener := listener l; closeCallback := f;
     receiveCallback := receiveCallback l; addr := addr l; conns := conns l;
     lastId := lastId l; stop := stop l; lock := lock l |}.

(** [listen], when [net.Listen] succeeds with listener [h]. *)
Definition listen (h : nat) (l : tcpServer) : tcpServer :=
  {| listener := Some h; closeCallback := closeCallback l;
     receiveCallback := receiveCallback l; addr := addr l; conns := conns l;
     lastId := lastId l; stop := stop l; lock := lock l |}.

Definition set_lock (o : option owner) (l : tcpServer) : tcpServer :=
  {| listener := listener l; closeCallback := closeCallback l;
     receiveCallback := receiveCallback l; addr := addr l; conns := conns l;
     lastId := lastId l; stop := stop l; lock := o |}.

Definition set_stop (z : Z) (l : tcpServer) : tcpServer :=
  {| listener := listener l; closeCallback := closeCallback l;
     receiveCallback := receiveCallback l; addr := addr l; conns := conns l;
     lastId := lastId l; stop := z; lock := lock l |}.

Definition set_lastId (z : Z) (l : tcpServer) : tcpServer :=
  {| listener := listener l; closeCallback := closeCallback l;
     receiveCallback := receiveCallback l; addr := addr l; conns := conns l;
     lastId := z; stop := stop l; lock := lock l |}.

(** [saveConn]: [l.conns.Store(id, conn)]. *)
Definition saveConn (id : Z) (p : ptr) (l : tcpServer) : tcpServer :=
  {| listener := listener l; closeCallback := closeCallback l;
     receiveCallback := receiveCallback l; addr := addr l;
     conns := <[id := p]> (conns l);
     lastId := lastId l; stop := stop l; lock := lock l |}.

(** [getConnById]: [l.conns.Load(id)]. *)
Definition getConnById (id : Z) (l : tcpServer) : option ptr := conns l !! id.

(** [getConnAutoIncId] when no other goroutine touches [lastId] between the
    load and the compare-and-swap: the first iteration succeeds.  The
    contended loop is the subject of [Module Allocator]. *)
Definition getConnAutoIncId (l : tcpServer) : Z * tcpServer :=
  let val := uint32_incr (lastId l) in (val, set_lastId val l).

(** The server, the application state and the effects so far (newest
    first). *)
Record world := World {
  srv : tcpServer;
  app : A;
  log : list event
}.

Definition emit (e : event) (w : world) : world :=
  {| srv := srv w; app := app w; log := e :: log w |}.

Definition emits (es : list event) (w : world) : world :=
  foldl (λ w e, emit e w) w es.

Definition with_srv (f : tcpServer → tcpServer) (w : world) : world :=
  {| srv := f (srv w); app := app w; log := log w |}.

Definition with_app (f : A → A) (w : world) : world :=
  {| srv := srv w; app := f (app w); log := log w |}.

(** [handelReceive]. *)
Definition handelReceive (p : ptr) (bt : bytes) (w : world) : world :=
  match receiveCallback (srv w) with
  | Some f => with_app (f p bt) (emit (EvReceiveCallback p bt) w)
  | None => w
  end.

(** The second half of [handelReadClose]: the guarded callback call. *)
Definition call_closeCallback (p : ptr) (isServer isClient : bool) (w : world)
  : world :=
  match closeCallback (srv w) with
  | Some f =>
      with_app (f p isServer isClient) (emit (EvCloseCallback p isServer isClient) w)
  | None => w
  end.

(** [Shutdown] between [l.lock.Lock()] and the deferred [Unlock]: the
    sockets of the registered connections in the order [Range] visits
    them, then the listener.  A nil listener panics, after the sockets
    were closed. *)
Definition range_conns (l : tcpServer) : list ptr :=
  (map_to_list (conns l)).*2.

Definition close_conns (ps : list ptr) (w : world) : world :=
  emits (EvSockClose <$> ps) w.

Definition close_listener (w : world) : world :=
  match listener (srv w) with
  | Some _ => emit EvListenerClose w
  | None => emit (EvPanic PanicNilListener) w
  end.

Definition Shutdown_locked (g : gid) (w : world) : world :=
  if decide (stop (srv w) ≠ 0) then w
  else
    let w1 := emit (EvStopSet g) (with_srv (set_stop 2) w) in
    close_listener (close_conns (range_conns (srv w1)) w1).

(** [Shutdown] called while the mutex is free: lock, body, deferred unlock. *)
Definition Shutdown (g : gid) (w : world) : world :=
  emit (EvShutdownReturn g)
    (with_srv (set_lock None)
       (Shutdown_locked g (with_srv (set_lock (Some (OwnShutdown g))) w))).

End Server.

Arguments tcpServer : clear implicits.
Arguments world : clear implicits.
Arguments CloseCallback : clear implicits.
Arguments ReceiveCallback : clear implicits.

(** ** Connections and their three goroutines *)

(** [TcpConn].  Only [LoopRead] sends on [output], only the callers of
    [Send] and [Broadcast] send on [input], and no statement sends on
    [waitConn]: the sender type of each queue says so. *)
Record TcpConn := MkTcpConn {
  conn : nat;
  id : Z;
  input : chan gid bytes;
  output : chan unit bytes;
  waitConn : chan Empty_set bool
}.

(** Where [LoopRead] stands. *)
Inductive reader_pc :=
| RSelect                                (* at the select *)
| RRead                                  (* default branch: in conn.conn.Read *)
| RSendWait                              (* parked in conn.output <- bt *)
| RClose (isServer isClient : bool)      (* handelReadClose: before close(..) *)
| RCallback (isServer isClient : bool)   (* handelReadClose: before the callback *)
| RDone.

(** Where [ConsumeInput] stands. *)
Inductive sender_pc :=
| SSelect
| SLock (msg : bytes)                    (* before l.lock.Lock() *)
| SLocked (msg : bytes)                  (* after l.lock.Lock() *)
| SDone.

(** Where [ConsumeOutput] stands. *)
Inductive disp_pc :=
| DSelect
| DHandle (msg : bytes)                  (* after msg := <-conn.output *)
| DDone.

Record conn_state := ConnState {
  obj : TcpConn;
  rd : reader_pc;
  sd : sender_pc;
  dp : disp_pc
}.

Definition set_input (ch : chan gid bytes) (c : conn_state) : conn_state :=
  {| obj := {| conn := conn (obj c); id := id (obj c); input := ch;
               output := output (obj c); waitConn := waitConn (obj c) |};
     rd := rd c; sd := sd c; dp := dp c |}.

Definition set_output (ch : chan unit bytes) (c : conn_state) : conn_state :=
  {| obj := {| conn := conn (obj c); id := id (obj c); input := input (obj c);
               output := ch; waitConn := waitConn (obj c) |};
     rd := rd c; sd := sd c; dp := dp c |}.

Definition set_waitConn (ch : chan Empty_set bool) (c : conn_state) : conn_state :=
  {| obj := {| conn := conn (obj c); id := id (obj c); input := input (obj c);
               output := output (obj c); waitConn := ch |};
     rd := rd c; sd := sd c; dp := dp c |}.

Definition set_rd (pc : reader_pc) (c : conn_state) : conn_state :=
  {| obj := obj c; rd := pc; sd := sd c; dp := dp c |}.

Definition set_sd (pc : sender_pc) (c : conn_state) : conn_state :=
  {| obj := obj c; rd := rd c; sd := pc; dp := dp c |}.

Definition set_dp (pc : disp_pc) (c : conn_state) : conn_state :=
  {| obj := obj c; rd := rd c; sd := sd c; dp := pc |}.

(** The connection object and goroutines that the accept callback of
    [Start] creates. *)
Definition new_conn (sock : nat) (newId : Z) : conn_state :=
  {| obj := {| conn := sock; id := newId; input := make_chan;
               output := make_chan; waitConn := make_chan |};
     rd := RSelect; sd := SSelect; dp := DSelect |}.

(** A receive on [output] took the value of the parked reader: its send
    returns and [LoopRead] is back at the select. *)
Definition resume_reader (r : option (unit * bytes)) (c : conn_state) : conn_state :=
  match r, rd c with
  | Some _, RSendWait => set_rd RSelect c
  | _, _ => c
  end.

Definition sent_events (p : ptr) (r : option (unit * bytes)) : list event :=
  match r with Some (_, bt) => [EvOutputSent p bt] | None => [] end.

Definition resumed_caller (r : option (gid * bytes)) : option gid :=
  match r with Some (g, _) => Some g | None => None end.

Section Tasks.

Context {A : Type}.

(** [LoopRead], lines 161-174: what the reader does with a failed read. *)
Definition read_failed (e : read_err) (w : world A) : world A * reader_pc :=
  match e with
  | ErrEOF => (w, RClose false true)
  | ErrOpError => (w, RClose true false)
  | ErrOther => (emit (EvLogErr "read") w, RDone)
  end.

(** [handelReadClose], first statement. *)
Definition close_waitConn (p : ptr) (isServer isClient : bool)
    (wc : world A * conn_state) : world A * conn_state :=
  match chan_close (waitConn (obj wc.2)) with
  | Some ch =>
      (emit (EvCloseSignal p) wc.1,
       set_rd (RCallback isServer isClient) (set_waitConn ch wc.2))
  | None =>
      (emit (EvPanic PanicCloseOfClosedChannel) wc.1, set_rd RDone wc.2)
  end.

(** [handelReadClose]: the close, then the guarded callback.  ([close]
    panics on a closed channel, and the callback is not reached.) *)
Definition handelReadClose (p : ptr) (isServer isClient : bool)
    (wc : world A * conn_state) : world A * conn_state :=
  let wc1 := close_waitConn p isServer isClient wc in
  match rd wc1.2 with
  | RCallback sv cl => (call_closeCallback p sv cl wc1.1, set_rd RDone wc1.2)
  | _ => wc1
  end.

(** [LoopRead], lines 160-174, when [Read] fails with [e]: all that the
    reader does until it returns. *)
Definition LoopRead_failed (p : ptr) (e : read_err)
    (wc : world A * conn_state) : world A * conn_state :=
  let w1 := read_failed e (emit (EvRead p (ReadFail e)) wc.1) in
  match w1.2 with
  | RClose sv cl => handelReadClose p sv cl (w1.1, set_rd (RClose sv cl) wc.2)
  | pc => (w1.1, set_rd pc wc.2)
  end.

(** [ConsumeInput], lines 134-147: from the stop check to the end of the
    iteration, the mutex being held; [werr] tells whether [Write] fails. *)
Definition ConsumeInput_locked (p : ptr) (msg : bytes) (werr : bool)
    (w : world A) : world A :=
  if decide (stop (srv w) ≠ 0) then w
  else if werr then
    emit (EvLogErr "conn %d write err") (emit (EvWriteErr p msg) w)
  else
    with_srv (set_lock None) (emit (EvLogPrint p msg) (emit (EvWrite p msg) w)).

(** The atomic steps of the three goroutines of connection [p].  The label
    names the caller whose parked send the step completed. *)
Inductive conn_step (p : ptr)
  : world A * conn_state → option gid → world A * conn_state → Prop :=
(* LoopRead *)
| reader_exit w c r ch :
    rd c = RSelect →
    chan_recv (waitConn (obj c)) = Some (r, ch) →
    conn_step p (w, c) None (w, set_rd RDone (set_waitConn ch c))
| reader_drain w c r ch :
    rd c = RSelect →
    chan_recv (output (obj c)) = Some (r, ch) →
    conn_step p (w, c) None
      (emit (EvOutputDrained p) (emits (sent_events p r) w),
       resume_reader r (set_output ch c))
| reader_default w c :
    rd c = RSelect →
    chan_recv (waitConn (obj c)) = None →
    chan_recv (output (obj c)) = None →
    conn_step p (w, c) None (w, set_rd RRead c)
| reader_read_ok w c bt ch :
    rd c = RRead →
    (length bt ≤ 1024)%nat →
    chan_send () bt (output (obj c)) = Some ch →
    conn_step p (w, c) None
      (emit (EvRead p (ReadOk bt)) w, set_rd RSendWait (set_output ch c))
| reader_read_ok_panic w c bt :
    rd c = RRead →
    (length bt ≤ 1024)%nat →
    chan_send () bt (output (obj c)) = None →
    conn_step p (w, c) None
      (emit (EvPanic PanicSendOnClosedChannel) (emit (EvRead p (ReadOk bt)) w),
       set_rd RDone c)
| reader_read_err w c e :
    rd c = RRead →
    conn_step p (w, c) None
      ((read_failed e (emit (EvRead p (ReadFail e)) w)).1,
       set_rd (read_failed e w).2 c)
| reader_close w c isServer isClient :
    rd c = RClose isServer isClient →
    conn_step p (w, c) None (close_waitConn p isServer isClient (w, c))
| reader_callback w c isServer isClient :
    rd c = RCallback isServer isClient →
    conn_step p (w, c) None
      (call_closeCallback p isServer isClient w, set_rd RDone c)
(* ConsumeOutput *)
| disp_exit w c r ch :
    dp c = DSelect →
    chan_recv (waitConn (obj c)) = Some (r, ch) →
    conn_step p (w, c) None (w, set_dp DDone (set_waitConn ch c))
| disp_recv w c r ch :
    dp c = DSelect →
    chan_recv (output (obj c)) = Some (r, ch) →
    conn_step p (w, c) None
      (emits (sent_events p r) w,
       set_dp (DHandle (recv_bytes r)) (resume_reader r (set_output ch c)))
| disp_handle w c msg :
    dp c = DHandle msg →
    conn_step p (w, c) None
      (handelReceive p msg
         (emit (EvHandelReceive p msg) (emit (EvPrintln "output id") w)),
       set_dp DSelect c)
(* ConsumeInput *)
| sender_exit w c r ch :
    sd c = SSelect →
    chan_recv (waitConn (obj c)) = Some (r, ch) →
    conn_step p (w, c) None (w, set_sd SDone (set_waitConn ch c))
| sender_recv w c r ch :
    sd c = SSelect →
    chan_recv (input (obj c)) = Some (r, ch) →
    conn_step p (w, c) (resumed_caller r)
      (w, set_sd (SLock (recv_bytes r)) (set_input ch c))
| sender_lock w c msg :
    sd c = SLock msg →
    lock (srv w) = None →
    conn_step p (w, c) None
      (with_srv (set_lock (Some (OwnSender p))) w, set_sd (SLocked msg) c)
| sender_locked w c msg werr :
    sd c = SLocked msg →
    conn_step p (w, c) None
      (ConsumeInput_locked p msg werr w, set_sd SSelect c).

(** ** The whole server *)

(** Where [LoopAccept] stands. *)
Inductive acceptor_pc :=
| AAccept
| ALock (sock : nat)                     (* accepted, before l.lock.Lock() *)
| ALocked (sock : nat)                   (* after l.lock.Lock() *)
| ADone.

(** A goroutine inside [Send], [SendById] or [Broadcast]: the channel sends
    it still has to make, and whether it is parked in the first of them. *)
Record caller := Caller {
  todo : list (ptr * bytes);
  offered : bool
}.

Inductive facade_call :=
| CallSend (p : ptr) (v : bytes)
| CallSendById (id : Z) (v : bytes)
| CallBroadcast (bt : bytes).

(** The channel sends of a call, in order: [Broadcast] visits the
    registry as [Range] finds it when the call starts. *)
Definition sends_of (l : tcpServer A) (fc : facade_call) : list (ptr * bytes) :=
  match fc with
  | CallSend p v => [(p, v)]
  | CallSendById i v =>
      match getConnById i l with Some p => [(p, v)] | None => [] end
  | CallBroadcast bt => (λ p, (p, bt)) <$> range_conns l
  end.

Definition call_events (l : tcpServer A) (fc : facade_call) : list event :=
  match fc with
  | CallSendById i v =>
      match getConnById i l with
      | Some _ => []
      | None => [EvLogErr "not found conn %d"]
      end
  | _ => []
  end.

Record state := State {
  wld : world A;
  heap : list conn_state;
  acc : acceptor_pc;
  callers : gmap gid caller
}.

(** The send of caller [g] was taken: the call goes on to its next send. *)
Definition resume_caller (g : gid) (cs : gmap gid caller) : gmap gid caller :=
  match cs !! g with
  | Some (Caller (_ :: rest) true) => <[g := Caller rest false]> cs
  | _ => cs
  end.

Definition after_label (lbl : option gid) (w : world A) (cs : gmap gid caller)
  : world A * gmap gid caller :=
  match lbl with
  | Some g => (emit (EvSendReturn g) w, resume_caller g cs)
  | None => (w, cs)
  end.

(** [LoopAccept], lines 78-84, the mutex being held: the stop check, and
    the callback that [Start] passes ([newId], the connection with fresh
    channels, its three goroutines, [saveConn]), then [Unlock]. *)
Definition accept_locked (sock : nat) (w : world A) (h : list conn_state)
  : world A * list conn_state :=
  if decide (stop (srv w) ≠ 0) then (emit (EvPrintln "server is stop") w, h)
  else
    let '(newId, l1) := getConnAutoIncId (srv w) in
    let l2 := saveConn newId (length h) l1 in
    (emit (EvPrintln "conn success")
       {| srv := set_lock None l2; app := app w; log := log w |},
     h ++ [new_conn sock newId]).

Inductive step : state → state → Prop :=
| step_conn s p c lbl w' c' :
    heap s !! p = Some c →
    conn_step p (wld s, c) lbl (w', c') →
    step s {| wld := (after_label lbl w' (callers s)).1;
              heap := <[p := c']> (heap s);
              acc := acc s;
              callers := (after_label lbl w' (callers s)).2 |}
(* LoopAccept *)
| step_accept_ok s sock :
    acc s = AAccept →
    step s {| wld := wld s; heap := heap s; acc := ALock sock;
              callers := callers s |}
| step_accept_err s (isOpError : bool) :
    acc s = AAccept →
    step s {| wld := emit (if isOpError then EvPrintln "server shutdown"
                           else EvLogErr "accept") (wld s);
              heap := heap s; acc := ADone; callers := callers s |}
| step_accept_lock s sock :
    acc s = ALock sock →
    lock (srv (wld s)) = None →
    step s {| wld := with_srv (set_lock (Some OwnAcceptor)) (wld s);
              heap := heap s; acc := ALocked sock; callers := callers s |}
| step_accept_locked s sock :
    acc s = ALocked sock →
    step s {| wld := (accept_locked sock (wld s) (heap s)).1;
              heap := (accept_locked sock (wld s) (heap s)).2;
              acc := AAccept; callers := callers s |}
(* Send, SendById, Broadcast *)
| step_call s g fc :
    callers s !! g = None →
    (∀ p v, fc = CallSend p v → (p < length (heap s))%nat) →
    step s {| wld := emits (call_events (srv (wld s)) fc) (wld s);
              heap := heap s; acc := acc s;
              callers := <[g := Caller (sends_of (srv (wld s)) fc) false]>
                           (callers s) |}
| step_offer s g p v rest c ch :
    callers s !! g = Some (Caller ((p, v) :: rest) false) →
    heap s !! p = Some c →
    chan_send g v (input (obj c)) = Some ch →
    step s {| wld := wld s; heap := <[p := set_input ch c]> (heap s);
              acc := acc s;
              callers := <[g := Caller ((p, v) :: rest) true]> (callers s) |}
| step_offer_panic s g p v rest c :
    callers s !! g = Some (Caller ((p, v) :: rest) false) →
    heap s !! p = Some c →
    chan_send g v (input (obj c)) = None →
    step s {| wld := emit (EvPanic PanicSendOnClosedChannel) (wld s);
              heap := heap s; acc := acc s;
              callers := <[g := Caller [] false]> (callers s) |}
(* Shutdown *)
| step_shutdown_lock s g :
    lock (srv (wld s)) = None →
    step s {| wld := with_srv (set_lock (Some (OwnShutdown g))) (wld s);
              heap := heap s; acc := acc s; callers := callers s |}
| step_shutdown_locked s g :
    lock (srv (wld s)) = Some (OwnShutdown g) →
    step s {| wld := emit (EvShutdownReturn g)
                       (with_srv (set_lock None) (Shutdown_locked g (wld s)));
              heap := heap s; acc := acc s; callers := callers s |}.

(** The server after [Start]: [l0] is a server whose [listen] succeeded and
    on which nothing else ran yet. *)
Definition started (l0 : tcpServer A) : Prop :=
  is_Some (listener l0) ∧ conns l0 = ∅ ∧ lastId l0 = 0 ∧ stop l0 = 0
  ∧ lock l0 = None.

Definition init (l0 : tcpServer A) (a0 : A) : state :=
  {| wld := {| srv := l0; app := a0; log := [] |};
     heap := []; acc := AAccept; callers := ∅ |}.

Definition reachable (l0 : tcpServer A) (a0 : A) (s : state) : Prop :=
  rtc step (init l0 a0) s.

(** The state after connection [p] went from [c] to [wc.2] and the world to
    [wc.1]. *)
Definition with_conn (s : state) (p : ptr) (wc : world A * conn_state) : state :=
  {| wld := wc.1; heap := <[p := wc.2]> (heap s); acc := acc s;
     callers := callers s |}.

End Tasks.

Arguments state : clear implicits.

(** A server for the examples: [NewTcpServer("989")] after a successful
    [listen], with the callbacks it is born with and an application state
    that holds nothing. *)
Definition demo_server : tcpServer unit := listen 0 (NewTcpServer "989").

(** ** [getConnAutoIncId] under contention

    Any number of goroutines run the load / compare-and-swap loop on
    [l.lastId]; each atomic operation is one step. *)

Module Allocator.

(** Where a goroutine stands in [getConnAutoIncId]. *)
Inductive alloc_pc :=
| AtLoad                       (* before atomic.LoadUint32(&l.lastId) *)
| AtCas (old val : Z).         (* before CompareAndSwapUint32(&l.lastId, old, val) *)

Record alloc_state := AllocState {
  counter : Z;                 (* l.lastId *)
  running : gmap gid alloc_pc; (* the goroutines inside a call *)
  returned : list Z            (* the ids returned so far, newest first *)
}.

Inductive alloc_step : alloc_state → alloc_state → Prop :=
| alloc_call s g :
    running s !! g = None →
    alloc_step s {| counter := counter s;
                    running := <[g := AtLoad]> (running s);
                    returned := returned s |}
| alloc_load s g :
    running s !! g = Some AtLoad →
    alloc_step s {| counter := counter s;
                    running := <[g := AtCas (counter s) (uint32_incr (counter s))]>
                                 (running s);
                    returned := returned s |}
| alloc_cas_ok s g old val :
    running s !! g = Some (AtCas old val) →
    counter s = old →
    alloc_step s {| counter := val;
                    running := delete g (running s);
                    returned := val :: returned s |}
| alloc_cas_retry s g old val :
    running s !! g = Some (AtCas old val) →
    counter s ≠ old →
    alloc_step s {| counter := counter s;
                    running := <[g := AtLoad]> (running s);
                    returned := returned s |}.

(** [NewTcpServer] sets [lastId: 0]. *)
Definition alloc_init : alloc_state :=
  {| counter := 0; running := ∅; returned := [] |}.

Definition alloc_reachable (s : alloc_state) : Prop := rtc alloc_step alloc_init s.

(** The ids in the order in which the calls took effect. *)
Definition allocation_order (s : alloc_state) : list Z := rev (returned s).

(** The ids of the first [n] allocations, newest first. *)
Fixpoint ids_upto (n : nat) : list Z :=
  match n with
  | O => []
  | S k => (Z.of_nat (S k) mod uint32_modulus) :: ids_upto k
  end.

(** What every reachable state satisfies: the counter is the number of
    ids handed out, modulo 2^32, and the ids are the successive values of
    the counter. *)
Record alloc_inv (s : alloc_state) : Prop := {
  ai_counter : counter s = Z.of_nat (length (returned s)) mod uint32_modulus;
  ai_returned : returned s = ids_upto (length (returned s));
  ai_cas : ∀ g old val,
    running s !! g = Some (AtCas old val) → val = uint32_incr old
}.

(** Strictly increasing in allocation order, and never reused. *)
Definition ids_strictly_increasing (s : alloc_state) : Prop :=
  ∀ (i j : nat) (x y : Z),
    (i < j)%nat →
    allocation_order s !! i = Some x →
    allocation_order s !! j = Some y →
    x < y.

Definition ids_never_reused (s : alloc_state) : Prop :=
  NoDup (allocation_order s).

(** Two goroutines race for the first id: both load 0, one wins the
    compare-and-swap, the other one retries and gets 2. *)
Definition race_state : alloc_state :=
  {| counter := 2; running := ∅; returned := [2; 1] |}.

End Allocator.

(** ** The message router of the server's [main] *)

Module Router.

Record ShutdownReq := MkShutdownReq { Msg : string }.

(** The values of type [any] that the router handles: the nil interface,
    a [*ShutdownReq], or whatever else the codec hands back. *)
Inductive any :=
| AnyNil
| AnyShutdownReq (r : ShutdownReq)
| AnyOther (tag : nat).

Definition is_nil (v : any) : bool :=
  match v with AnyNil => true | _ => false end.

Definition error := string.

(** [btmsg.IMsg], as far as the router uses it. *)
Class IMsg (M : Type) := {
  GetAct : M → Z;
  ToStruct : M → any → any * option error
}.

Inductive result (W : Type) :=
| Done (w : W)
| Panicked.
Arguments Done {W} _.
Arguments Panicked {W}.

Inductive router_event :=
| RtNotFound (act : Z)               (* fmt.Println("not found handle", act) *)
| RtPrintErr (e : error)             (* fmt.Println(err) *)
| RtInvoke (key : Z) (info : any).   (* routes[key].Handle(conn, msg, info) *)

Section Routes.

Context {W M : Type} `{IMsg M}.

Definition RouteHandle := ptr → M → any → W → result W.

Record RouteInfo := MkRouteInfo {
  Handle : RouteHandle;
  Info : any
}.

(** The bodies of the two business handlers are not the router's concern. *)
Context (handleDefault : ptr → M → any → W → result W).
Context (handleShutdown : ptr → M → ShutdownReq → W → result W).

(** [init]. *)
Definition routes : gmap Z RouteInfo :=
  <[100 := {| Handle := λ c msg req,
                match req with
                | AnyShutdownReq r => handleShutdown c msg r
                | _ => λ _, Panicked         (* req.( *ShutdownReq ) *)
                end;
              Info := AnyShutdownReq {| Msg := "" |} |}]>
  (<[0 := {| Handle := λ c msg req, handleDefault c msg req;
             Info := AnyNil |}]> ∅).

Record routed := Routed {
  trace : list router_event;         (* oldest first *)
  outcome : result W
}.

(** Lines 169-178: decode when the route has a prototype, then call. *)
Definition dispatch (key : Z) (hv : RouteInfo) (c : ptr) (msg : M) (w : W)
    (before : list router_event) : routed :=
  if is_nil (Info hv) then
    {| trace := before ++ [RtInvoke key (Info hv)];
       outcome := Handle hv c msg (Info hv) w |}
  else
    match ToStruct msg (Info hv) with
    | (_, Some err) =>
        {| trace := before ++ [RtPrintErr err]; outcome := Done w |}
    | (info, None) =>
        {| trace := before ++ [RtInvoke key info];
           outcome := Handle hv c msg info w |}
    end.

(** The callback that [main] registers with [server.OnReceive]; a table
    without route 0 makes [hv] nil on a miss, and [hv.Info] panics. *)
Definition on_receive (rt : gmap Z RouteInfo) (c : ptr) (msg : M) (w : W)
  : routed :=
  let act := GetAct msg in
  match rt !! act with
  | Some hv => dispatch act hv c msg w []
  | None =>
      match rt !! 0 with
      | Some hv => dispatch 0 hv c msg w [RtNotFound act]
      | None => {| trace := [RtNotFound act]; outcome := Panicked |}
      end
  end.

Definition invocations (t : list router_event) : list (Z * any) :=
  omap (λ e, match e with RtInvoke k i => Some (k, i) | _ => None end) t.

(** The route that serves action code [act]: its own, or route 0. *)
Definition route_key (rt : gmap Z RouteInfo) (act : Z) : Z :=
  if decide (is_Some (rt !! act)) then act else 0.

(** What the callback prints before it dispatches. *)
Definition miss (rt : gmap Z RouteInfo) (act : Z) : list router_event :=
  if decide (is_Some (rt !! act)) then [] else [RtNotFound act].

End Routes.

Arguments RouteInfo : clear implicits.
Arguments RouteHandle : clear implicits.
Arguments routed : clear implicits.

End Router.

(** ** Reading the log *)

(** The events of the reader and of the dispatcher of connection [p]. *)
Definition about (p : ptr) (e : event) : bool :=
  match e with
  | EvRead q _ | EvOutputSent q _ | EvOutputDrained q | EvCloseSignal q
  | EvCloseCallback q _ _ | EvHandelReceive q _ | EvReceiveCallback q _ =>
      Nat.eqb q p
  | _ => false
  end.

Fixpoint conn_log (p : ptr) (lg : list event) : list event :=
  match lg with
  | [] => []
  | e :: lg => if about p e then e :: conn_log p lg else conn_log p lg
  end.

Definition read_failures (lg : list event) : list read_err :=
  omap (λ e, match e with EvRead _ (ReadFail x) => Some x | _ => None end) lg.

Definition frames_read (lg : list event) : list bytes :=
  omap (λ e, match e with EvRead _ (ReadOk bt) => Some bt | _ => None end) lg.

Definition frames_sent (lg : list event) : list bytes :=
  omap (λ e, match e with EvOutputSent _ bt => Some bt | _ => None end) lg.

Definition frames_handled (lg : list event) : list bytes :=
  omap (λ e, match e with EvHandelReceive _ bt => Some bt | _ => None end) lg.

Definition frames_received (lg : list event) : list bytes :=
  omap (λ e, match e with EvReceiveCallback _ bt => Some bt | _ => None end) lg.

Definition drains (lg : list event) : list ptr :=
  omap (λ e, match e with EvOutputDrained q => Some q | _ => None end) lg.

Definition close_signals (lg : list event) : list ptr :=
  omap (λ e, match e with EvCloseSignal q => Some q | _ => None end) lg.

Definition close_callbacks (lg : list event) : list (bool * bool) :=
  omap (λ e, match e with EvCloseCallback _ s k => Some (s, k) | _ => None end) lg.

Definition panics (lg : list event) : list panic_cause :=
  omap (λ e, match e with EvPanic c => Some c | _ => None end) lg.

(** What [Shutdown] leaves in the log. *)
Definition is_shutdown_event (e : event) : bool :=
  match e with
  | EvSockClose _ | EvListenerClose | EvStopSet _ | EvShutdownReturn _ => true
  | _ => false
  end.

Fixpoint shutdown_log (lg : list event) : list event :=
  match lg with
  | [] => []
  | e :: lg => if is_shutdown_event e then e :: shutdown_log lg else shutdown_log lg
  end.

Definition sock_closes (p : ptr) (lg : list event) : nat :=
  length (omap (λ e, match e with
                     | EvSockClose q => if Nat.eqb q p then Some q else None
                     | _ => None
                     end) lg).

Definition listener_closes (lg : list event) : nat :=
  length (omap (λ e, match e with EvListenerClose => Some () | _ => None end) lg).

Definition stop_sets (lg : list event) : list gid :=
  omap (λ e, match e with EvStopSet g => Some g | _ => None end) lg.

Definition shutdown_returns (lg : list event) : list gid :=
  omap (λ e, match e with EvShutdownReturn g => Some g | _ => None end) lg.

(** The flags that [LoopRead] passes to [handelReadClose] for a failed
    read, [(isServer, isClient)]; none when it only logs. *)
Definition close_flags (e : read_err) : option (bool * bool) :=
  match e with
  | ErrEOF => Some (false, true)
  | ErrOpError => Some (true, false)
  | ErrOther => None
  end.

(** The frame that the dispatcher holds between its receive and the call
    of [handelReceive]. *)
Definition in_dispatch (c : conn_state) : list bytes :=
  match dp c with DHandle m => [m] | _ => [] end.

(** The log that the first [Shutdown] to take the mutex writes, newest
    first. *)
Definition first_shutdown (ps : list ptr) (g : gid) : list event :=
  EvShutdownReturn g :: EvListenerClose :: rev (EvSockClose <$> ps) ++ [EvStopSet g].

(** ** Invariants of the reachable states *)

Section Invariants.

Context {A : Type}.

Implicit Types (w : world A) (c : conn_state) (s : state A) (lg : list event).

(** What the reader's program counter [pc] says about the close signal
    ([closed]) and the close callback of its connection; [lg] is the
    connection's own log. *)
Definition reader_inv (cc : option (CloseCallback A)) (pc : reader_pc)
    (closed : bool) lg : Prop :=
  match pc with
  | RSelect | RRead | RSendWait =>
      closed = false ∧ read_failures lg = []
      ∧ close_signals lg = [] ∧ close_callbacks lg = []
  | RClose sv cl =>
      closed = false
      ∧ (∃ e, read_failures lg = [e] ∧ close_flags e = Some (sv, cl))
      ∧ close_signals lg = [] ∧ close_callbacks lg = []
  | RCallback sv cl =>
      closed = true
      ∧ (∃ e, read_failures lg = [e] ∧ close_flags e = Some (sv, cl))
      ∧ length (close_signals lg) = 1%nat ∧ close_callbacks lg = []
  | RDone =>
      ∃ e, read_failures lg = [e] ∧
        match close_flags e with
        | Some fl =>
            closed = true
            ∧ length (close_signals lg) = 1%nat
            ∧ close_callbacks lg = match cc with Some _ => [fl] | None => [] end
        | None =>
            closed = false ∧ close_signals lg = [] ∧ close_callbacks lg = []
        end
  end.

(** The queue of [output] holds the reader's frame exactly while the
    reader is parked in its send. *)
Definition parked_inv (pc : reader_pc) (q : list (unit * bytes)) : Prop :=
  match pc with
  | RSendWait => ∃ bt, q = [((), bt)]
  | _ => q = []
  end.

Record conn_inv (cc : option (CloseCallback A)) (rc : option (ReceiveCallback A))
    c lg : Prop := {
  ci_input_open : ch_closed (input (obj c)) = false;
  ci_output_open : ch_closed (output (obj c)) = false;
  ci_parked : parked_inv (rd c) (ch_sendq (output (obj c)));
  ci_reader : reader_inv cc (rd c) (ch_closed (waitConn (obj c))) lg;
  ci_read :
    frames_read lg =
      rev (ch_sendq (output (obj c))).*2 ++ in_dispatch c ++ frames_handled lg;
  ci_sent : frames_sent lg = in_dispatch c ++ frames_handled lg;
  ci_received :
    frames_received lg = match rc with Some _ => frames_handled lg | None => [] end;
  ci_drains : drains lg = []
}.

(** The fields of the server that the connection goroutines leave alone. *)
Definition same_config (l l' : tcpServer A) : Prop :=
  listener l' = listener l ∧ closeCallback l' = closeCallback l
  ∧ receiveCallback l' = receiveCallback l ∧ conns l' = conns l
  ∧ lastId l' = lastId l ∧ stop l' = stop l.

(** The part of the invariant that speaks of the connections. *)
Record inv_conns (l0 : tcpServer A) (s : state A) : Prop := {
  ic_listener : listener (srv (wld s)) = listener l0;
  ic_close_cb : closeCallback (srv (wld s)) = closeCallback l0;
  ic_receive_cb : receiveCallback (srv (wld s)) = receiveCallback l0;
  ic_conn : ∀ p c, heap s !! p = Some c →
    conn_inv (closeCallback l0) (receiveCallback l0) c
      (conn_log p (log (wld s)));
  ic_fresh : ∀ p, (length (heap s) ≤ p)%nat → conn_log p (log (wld s)) = [];
  ic_panics : panics (log (wld s)) = []
}.

(** The mutex is held by the sender that stands after its [Lock], and
    by the acceptor when it stands after its own. *)
Record inv_lock (s : state A) : Prop := {
  il_sender : ∀ p c m, heap s !! p = Some c → sd c = SLocked m →
    lock (srv (wld s)) = Some (OwnSender p);
  il_acceptor : ∀ sock, acc s = ALocked sock →
    lock (srv (wld s)) = Some OwnAcceptor
}.

(** The registry maps distinct ids to distinct connections of the heap. *)
Record inv_registry (s : state A) : Prop := {
  ir_bound : ∀ i p, conns (srv (wld s)) !! i = Some p →
    (p < length (heap s))%nat;
  ir_inj : ∀ i j p, conns (srv (wld s)) !! i = Some p →
    conns (srv (wld s)) !! j = Some p → i = j
}.

(** Before the first [Shutdown] nothing of it is in the log; after it, the
    log holds what the first call did, and a return for every later call.
    [stop] is 0 or 2. *)
Definition inv_shutdown (s : state A) : Prop :=
  (stop (srv (wld s)) = 0 ∧ shutdown_log (log (wld s)) = [])
  ∨ (stop (srv (wld s)) = 2
     ∧ ∃ g later,
         shutdown_log (log (wld s)) =
           (EvShutdownReturn <$> later)
             ++ first_shutdown (range_conns (srv (wld s))) g).

(** A value parked in the queue of [input] belongs to a caller that is
    parked in exactly this send; no caller is parked twice. *)
Record inv_callers (s : state A) : Prop := {
  ik_parked : ∀ q c g v, heap s !! q = Some c →
    (g, v) ∈ ch_sendq (input (obj c)) →
    ∃ rest, callers s !! g = Some (Caller ((q, v) :: rest) true);
  ik_nodup : ∀ q c, heap s !! q = Some c →
    NoDup (ch_sendq (input (obj c))).*1;
  ik_target : ∀ g q v rest,
    callers s !! g = Some (Caller ((q, v) :: rest) true) →
    (q < length (heap s))%nat
}.

(** All of it. *)
Record inv (l0 : tcpServer A) (s : state A) : Prop := {
  inv_c : inv_conns l0 s;
  inv_l : inv_lock s;
  inv_r : inv_registry s;
  inv_s : inv_shutdown s;
  inv_k : inv_callers s
}.


(** Sender [p] holds the mutex and stands at a place from which it does
    not give it back. *)
Definition leaked (p : ptr) (s : state A) : Prop :=
  lock (srv (wld s)) = Some (OwnSender p)
  ∧ ∀ c m, heap s !! p = Some c → sd c ≠ SLocked m.

(** A caller parked in a send to a connection whose sender has returned. *)
Definition stranded (g : gid) (p : ptr) (x : caller) (s : state A) : Prop :=
  callers s !! g = Some x ∧ ∃ c, heap s !! p = Some c ∧ sd c = SDone.

End Invariants.

Arguments ic_listener {A l0} s _.
Arguments ic_close_cb {A l0} s _.
Arguments ic_receive_cb {A l0} s _.
Arguments ic_conn {A l0} s _ p c _.
Arguments ic_fresh {A l0} s _ p _.
Arguments ic_panics {A l0} s _.
Arguments inv_c {A l0} s _.
Arguments inv_l {A l0} s _.
Arguments inv_r {A l0} s _.
Arguments inv_s {A l0} s _.
Arguments inv_k {A l0} s _.

(** ** Running the server

    The step relation as a function: one action per rule, carrying what
    the environment chooses (the result of a [Read], whether a [Write]
    fails, the accepted socket, which of the ready cases a [select]
    takes).  [exec] returns [None] when the action cannot be taken. *)

Inductive conn_action :=
| ReaderExit
| ReaderDrain
| ReaderDefault
| ReaderRead (r : read_result)
| ReaderClose
| ReaderCallback
| DispExit
| DispRecv
| DispHandle
| SenderExit
| SenderRecv
| SenderLock
| SenderLocked (werr : bool).

Inductive action :=
| OnConn (p : ptr) (a : conn_action)
| AcceptOk (sock : nat)
| AcceptErr (isOpError : bool)
| AcceptLock
| AcceptLocked
| Call (g : gid) (fc : facade_call)
| Offer (g : gid)
| ShutdownLock (g : gid)
| ShutdownLocked (g : gid).

Section Exec.

Context {A : Type}.

Definition exec_conn (p : ptr) (a : conn_action) (w : world A) (c : conn_state)
  : option (option gid * (world A * conn_state)) :=
  match a, rd c, dp c, sd c with
  | ReaderExit, RSelect, _, _ =>
      match chan_recv (waitConn (obj c)) with
      | Some (r, ch) => Some (None, (w, set_rd RDone (set_waitConn ch c)))
      | None => None
      end
  | ReaderDrain, RSelect, _, _ =>
      match chan_recv (output (obj c)) with
      | Some (r, ch) =>
          Some (None, (emit (EvOutputDrained p) (emits (sent_events p r) w),
                       resume_reader r (set_output ch c)))
      | None => None
      end
  | ReaderDefault, RSelect, _, _ =>
      match chan_recv (waitConn (obj c)), chan_recv (output (obj c)) with
      | None, None => Some (None, (w, set_rd RRead c))
      | _, _ => None
      end
  | ReaderRead (ReadOk bt), RRead, _, _ =>
      if decide (length bt ≤ 1024)%nat then
        match chan_send () bt (output (obj c)) with
        | Some ch =>
            Some (None, (emit (EvRead p (ReadOk bt)) w,
                         set_rd RSendWait (set_output ch c)))
        | None =>
            Some (None, (emit (EvPanic PanicSendOnClosedChannel)
                           (emit (EvRead p (ReadOk bt)) w),
                         set_rd RDone c))
        end
      else None
  | ReaderRead (ReadFail e), RRead, _, _ =>
      Some (None, ((read_failed e (emit (EvRead p (ReadFail e)) w)).1,
                   set_rd (read_failed e w).2 c))
  | ReaderClose, RClose sv cl, _, _ =>
      Some (None, close_waitConn p sv cl (w, c))
  | ReaderCallback, RCallback sv cl, _, _ =>
      Some (None, (call_closeCallback p sv cl w, set_rd RDone c))
  | DispExit, _, DSelect, _ =>
      match chan_recv (waitConn (obj c)) with
      | Some (r, ch) => Some (None, (w, set_dp DDone (set_waitConn ch c)))
      | None => None
      end
  | DispRecv, _, DSelect, _ =>
      match chan_recv (output (obj c)) with
      | Some (r, ch) =>
          Some (None, (emits (sent_events p r) w,
                       set_dp (DHandle (recv_bytes r))
                         (resume_reader r (set_output ch c))))
      | None => None
      end
  | DispHandle, _, DHandle msg, _ =>
      Some (None, (handelReceive p msg
                     (emit (EvHandelReceive p msg)
                        (emit (EvPrintln "output id") w)),
                   set_dp DSelect c))
  | SenderExit, _, _, SSelect =>
      match chan_recv (waitConn (obj c)) with
      | Some (r, ch) => Some (None, (w, set_sd SDone (set_waitConn ch c)))
      | None => None
      end
  | SenderRecv, _, _, SSelect =>
      match chan_recv (input (obj c)) with
      | Some (r, ch) =>
          Some (resumed_caller r,
                (w, set_sd (SLock (recv_bytes r)) (set_input ch c)))
      | None => None
      end
  | SenderLock, _, _, SLock msg =>
      match lock (srv w) with
      | None =>
          Some (None, (with_srv (set_lock (Some (OwnSender p))) w,
                       set_sd (SLocked msg) c))
      | Some _ => None
      end
  | SenderLocked werr, _, _, SLocked msg =>
      Some (None, (ConsumeInput_locked p msg werr w, set_sd SSelect c))
  | _, _, _, _ => None
  end.

Definition call_allowed (h : list conn_state) (fc : facade_call) : bool :=
  match fc with
  | CallSend p _ => bool_decide (p < length h)%nat
  | _ => true
  end.

Definition exec (a : action) (s : state A) : option (state A) :=
  match a with
  | OnConn p ca =>
      match heap s !! p with
      | Some c =>
          match exec_conn p ca (wld s) c with
          | Some (lbl, (w', c')) =>
              Some {| wld := (after_label lbl w' (callers s)).1;
                      heap := <[p := c']> (heap s);
                      acc := acc s;
                      callers := (after_label lbl w' (callers s)).2 |}
          | None => None
          end
      | None => None
      end
  | AcceptOk sock =>
      match acc s with
      | AAccept => Some {| wld := wld s; heap := heap s; acc := ALock sock;
                           callers := callers s |}
      | _ => None
      end
  | AcceptErr isOpError =>
      match acc s with
      | AAccept =>
          Some {| wld := emit (if isOpError then EvPrintln "server shutdown"
                               else EvLogErr "accept") (wld s);
                  heap := heap s; acc := ADone; callers := callers s |}
      | _ => None
      end
  | AcceptLock =>
      match acc s, lock (srv (wld s)) with
      | ALock sock, None =>
          Some {| wld := with_srv (set_lock (Some OwnAcceptor)) (wld s);
                  heap := heap s; acc := ALocked sock; callers := callers s |}
      | _, _ => None
      end
  | AcceptLocked =>
      match acc s with
      | ALocked sock =>
          Some {| wld := (accept_locked sock (wld s) (heap s)).1;
                  heap := (accept_locked sock (wld s) (heap s)).2;
                  acc := AAccept; callers := callers s |}
      | _ => None
      end
  | Call g fc =>
      match callers s !! g with
      | None =>
          if call_allowed (heap s) fc then
            Some {| wld := emits (call_events (srv (wld s)) fc) (wld s);
                    heap := heap s; acc := acc s;
                    callers := <[g := Caller (sends_of (srv (wld s)) fc) false]>
                                 (callers s) |}
          else None
      | Some _ => None
      end
  | Offer g =>
      match callers s !! g with
      | Some (Caller ((p, v) :: rest) false) =>
          match heap s !! p with
          | Some c =>
              match chan_send g v (input (obj c)) with
              | Some ch =>
                  Some {| wld := wld s;
                          heap := <[p := set_input ch c]> (heap s);
                          acc := acc s;
                          callers := <[g := Caller ((p, v) :: rest) true]>
                                       (callers s) |}
              | None =>
                  Some {| wld := emit (EvPanic PanicSendOnClosedChannel) (wld s);
                          heap := heap s; acc := acc s;
                          callers := <[g := Caller [] false]> (callers s) |}
              end
          | None => None
          end
      | _ => None
      end
  | ShutdownLock g =>
      match lock (srv (wld s)) with
      | None =>
          Some {| wld := with_srv (set_lock (Some (OwnShutdown g))) (wld s);
                  heap := heap s; acc := acc s; callers := callers s |}
      | Some _ => None
      end
  | ShutdownLocked g =>
      if decide (lock (srv (wld s)) = Some (OwnShutdown g)) then
        Some {| wld := emit (EvShutdownReturn g)
                         (with_srv (set_lock None) (Shutdown_locked g (wld s)));
                heap := heap s; acc := acc s; callers := callers s |}
      else None
  end.

(** A schedule, run from [s]. *)
Fixpoint run (sched : list action) (s : state A) : option (state A) :=
  match sched with
  | [] => Some s
  | a :: sched =>
      match exec a s with
      | Some s' => run sched s'
      | None => None
      end
  end.

End Exec.

(** ** Example runs *)

Section Demo.

Local Open Scope nat_scope.

(** The acceptor takes one connection: it becomes connection 0, with id 1. *)
Definition accept_one : list action := [AcceptOk 7; AcceptLock; AcceptLocked].

Definition hi : bytes := [Byte.x68; Byte.x69].
Definition yo : bytes := [Byte.x79; Byte.x6f].

(** The reader of connection 0 stands in [Read]. *)
Definition sched_reading : list action :=
  accept_one ++ [OnConn 0 ReaderDefault].

(** The peer closes connection 0: the read ends with [io.EOF]. *)
Definition sched_peer_closes : list action :=
  sched_reading ++
  [OnConn 0 (ReaderRead (ReadFail ErrEOF)); OnConn 0 ReaderClose;
   OnConn 0 ReaderCallback].

(** The read of connection 0 fails with an error that is neither [io.EOF]
    nor a [*net.OpError]. *)
Definition sched_read_error : list action :=
  sched_reading ++ [OnConn 0 (ReaderRead (ReadFail ErrOther))].

(** Two frames arrive on connection 0; the first was dispatched, the
    dispatcher holds the second. *)
Definition sched_two_frames : list action :=
  sched_reading ++
  [OnConn 0 (ReaderRead (ReadOk hi)); OnConn 0 DispRecv; OnConn 0 DispHandle;
   OnConn 0 ReaderDefault; OnConn 0 (ReaderRead (ReadOk yo)); OnConn 0 DispRecv].

(** Goroutine 5 calls [Send(conn0, hi)], the sender of connection 0 takes
    the payload; goroutine 9 then runs [Shutdown], and after it the sender
    takes the mutex. *)
Definition sched_sender_after_shutdown : list action :=
  accept_one ++
  [Call 5 (CallSend 0 hi); Offer 5; OnConn 0 SenderRecv;
   ShutdownLock 9; ShutdownLocked 9; OnConn 0 SenderLock].

(** Goroutines 9 and then 4 run [Shutdown]. *)
Definition sched_shutdown_twice : list action :=
  accept_one ++
  [ShutdownLock 9; ShutdownLocked 9; ShutdownLock 4; ShutdownLocked 4].

(** The peer closes connection 0, its sender returns on the close signal,
    and then goroutine 5 calls [Send(conn0, hi)]. *)
Definition sched_send_after_close : list action :=
  sched_peer_closes ++
  [OnConn 0 SenderExit; Call 5 (CallSend 0 hi); Offer 5].

(** Goroutine 5 is parked in [Send(conn0, hi)]; the sender has not taken
    the payload yet. *)
Definition sched_send_parked : list action :=
  accept_one ++ [Call 5 (CallSend 0 hi); Offer 5].

(** Where a schedule leads from the start of a server. *)
Definition demo_of {A} (l0 : tcpServer A) (a0 : A) (sched : list action)
  : state A :=
  default (init l0 a0) (run sched (init l0 a0)).

Definition demo (sched : list action) : state unit := demo_of demo_server () sched.

(** Connection 0 of a state. *)
Definition conn0 {A} (s : state A) : conn_state :=
  default (new_conn 0 0%Z) (heap s !! 0).

(** A server as [main] sets it up, with callbacks of its own: the
    application counts the frames received and the connections closed. *)
Definition counting_server : tcpServer (nat * nat) :=
  OnReceive (Some (λ _ _ n, (S n.1, n.2)))
    (OnClose (Some (λ _ _ _ n, (n.1, S n.2)))
       (listen 0 (NewTcpServer "989"))).

End Demo.

(** * Properties *)

(** Case analysis on a receive that can proceed, and rewriting with what
    is known of a channel. *)
Ltac destruct_recv H :=
  unfold chan_recv in H;
  repeat match type of H with
  | context [match ch_sendq ?ch with _ => _ end] =>
      let E := fresh "Hq" in destruct (ch_sendq ch) as [|[? ?] ?] eqn:E
  | context [if ch_closed ?ch then _ else _] =>
      let E := fresh "Hcl" in destruct (ch_closed ch) eqn:E
  end; simplify_eq.


Ltac rew_chan :=
  repeat match goal with
  | H : ch_closed ?x = _ |- context [ch_closed ?x] => rewrite H
  | H : ch_sendq ?x = _ |- context [ch_sendq ?x] => rewrite H
  end.


(** ** The router *)

Module RouterSpec.
Import Router.

Section Routes.

Context {W M : Type} `{IMsg M}.
Context (handleDefault : ptr → M → any → W → result W).
Context (handleShutdown : ptr → M → ShutdownReq → W → result W).

Local Abbreviation table := (routes handleDefault handleShutdown).

Lemma dispatch_trace key (hv : RouteInfo W M) c msg w before :
  trace (dispatch key hv c msg w before) =
    before ++
    (if is_nil (Info hv) then [RtInvoke key (Info hv)]
     else match ToStruct msg (Info hv) with
          | (_, Some err) => [RtPrintErr err]
          | (info, None) => [RtInvoke key info]
          end).
Proof.
  unfold dispatch. destruct (is_nil (Info hv)); [done|].
  by destruct (ToStruct msg (Info hv)) as [info [err|]].
Qed.

Lemma dispatch_outcome key (hv : RouteInfo W M) c msg w before :
  outcome (dispatch key hv c msg w before) =
    if is_nil (Info hv) then Handle hv c msg (Info hv) w
    else match ToStruct msg (Info hv) with
         | (_, Some err) => Done w
         | (info, None) => Handle hv c msg info w
         end.
Proof.
  unfold dispatch. destruct (is_nil (Info hv)); [done|].
  by destruct (ToStruct msg (Info hv)) as [info [err|]].
Qed.

Lemma on_receive_dispatch (rt : gmap Z (RouteInfo W M)) c msg w hv :
  rt !! route_key rt (GetAct msg) = Some hv →
  on_receive rt c msg w =
    dispatch (route_key rt (GetAct msg)) hv c msg w (miss rt (GetAct msg)).
Proof.
  unfold on_receive, route_key, miss. intros Hhv.
  destruct (decide (is_Some (rt !! GetAct msg))) as [[hv' Hs]|Hn].
  - rewrite Hs in Hhv |- *. by simplify_eq.
  - destruct (rt !! GetAct msg) eqn:E; [by destruct Hn|].
    by rewrite Hhv.
Qed.

Lemma routes_default_present : is_Some (table !! 0).
Proof. unfold routes. rewrite lookup_insert_ne by lia. rewrite lookup_insert_eq. eauto. Qed.

Lemma routes_served act : is_Some (table !! route_key table act).
Proof.
  unfold route_key. destruct (decide (is_Some (table !! act))); [done|].
  apply routes_default_present.
Qed.

Lemma invocations_app (t1 t2 : list router_event) :
  invocations (t1 ++ t2) = invocations t1 ++ invocations t2.
Proof. apply omap_app. Qed.

Lemma invocations_miss (rt : gmap Z (RouteInfo W M)) act :
  invocations (miss rt act) = [].
Proof. unfold miss. by destruct (decide _). Qed.

(** C3. For every inbound message the callback registered with
    [OnReceive] serves it by the route of its action code when the table
    of [init] has one, otherwise by route 0 after printing the miss.  When
    the route has no prototype ([Info] nil) its handler is called once with
    the nil [info]; when it has one, the payload is decoded first: a decode
    error is printed and no handler is called, otherwise the route's
    handler is called once with the decoded value.  No other handler is
    called. *)
Theorem router_invokes_the_route_once (c : ptr) (msg : M) (w : W) :
  let act := GetAct msg in
  let key := route_key table act in
  let r := on_receive table c msg w in
  ∃ hv,
    table !! key = Some hv
    ∧ (is_Some (table !! act) → key = act)
    ∧ (table !! act = None → key = 0 ∧ ∃ rest, trace r = RtNotFound act :: rest)
    ∧ if is_nil (Info hv) then
        trace r = miss table act ++ [RtInvoke key (Info hv)]
        ∧ invocations (trace r) = [(key, Info hv)]
        ∧ outcome r = Handle hv c msg (Info hv) w
      else
        match ToStruct msg (Info hv) with
        | (info, None) =>
            trace r = miss table act ++ [RtInvoke key info]
            ∧ invocations (trace r) = [(key, info)]
            ∧ outcome r = Handle hv c msg info w
        | (_, Some err) =>
            trace r = miss table act ++ [RtPrintErr err]
            ∧ invocations (trace r) = []
            ∧ outcome r = Done w
        end.
Proof.
  intros act key r.
  destruct (routes_served act) as [hv Hhv]. exists hv.
  assert (Hr : r = dispatch key hv c msg w (miss table act))
    by (by apply on_receive_dispatch).
  split; [done|]. split; [|split].
  - intros Hs. unfold key, route_key. by rewrite decide_True.
  - intros Hn. assert (¬ is_Some (table !! act)) as Hns
      by (rewrite Hn; by intros [? ?]).
    split; [unfold key, route_key; by rewrite decide_False|].
    rewrite Hr, dispatch_trace. unfold miss. rewrite decide_False by done.
    simpl. eauto.
  - rewrite Hr, dispatch_trace, dispatch_outcome.
    destruct (is_nil (Info hv)).
    + by rewrite invocations_app, invocations_miss.
    + destruct (ToStruct msg (Info hv)) as [info [err|]];
        by rewrite invocations_app, invocations_miss.
Qed.

End Routes.

End RouterSpec.

(** ** The id allocator *)

Module AllocatorSpec.
Import Allocator.

Lemma uint32_incr_of_nat (n : nat) :
  uint32_incr (Z.of_nat n mod uint32_modulus) = Z.of_nat (S n) mod uint32_modulus.
Proof.
  unfold uint32_incr. rewrite Zplus_mod_idemp_l. f_equal. lia.
Qed.

Lemma alloc_inv_init : alloc_inv alloc_init.
Proof. split; [done|done|]. intros g old val. simpl. by rewrite lookup_empty. Qed.

Lemma alloc_inv_step s s' : alloc_step s s' → alloc_inv s → alloc_inv s'.
Proof.
  intros Hstep [Hc Hr Hcas].
  destruct Hstep as [s g Hg|s g Hg|s g old val Hg Hold|s g old val Hg Hne];
    split; simpl; try done.
  - intros g' old val. rewrite lookup_insert.
    case_decide; [done|]. apply Hcas.
  - intros g' old val. rewrite lookup_insert.
    case_decide; [|apply Hcas]. by intros [= <- <-].
  - rewrite (Hcas _ _ _ Hg), <- Hold, Hc. apply uint32_incr_of_nat.
  - rewrite <- Hr. f_equal.
    rewrite (Hcas _ _ _ Hg), <- Hold, Hc. apply uint32_incr_of_nat.
  - intros g' old' val'. rewrite lookup_delete.
    case_decide; [done|]. apply Hcas.
  - intros g' old' val'. rewrite lookup_insert.
    case_decide; [done|]. apply Hcas.
Qed.

Lemma alloc_reachable_inv s : alloc_reachable s → alloc_inv s.
Proof.
  unfold alloc_reachable. intros Hr.
  eapply (rtc_ind_r (R := alloc_step) alloc_inv);
    [apply alloc_inv_init| |exact Hr].
  intros y z _ Hstep Hy. by eapply alloc_inv_step.
Qed.

Lemma rev_ids_upto (n : nat) :
  rev (ids_upto n) = (λ i, Z.of_nat (S i) mod uint32_modulus) <$> seq 0 n.
Proof.
  induction n as [|n IH]; [done|].
  rewrite seq_S, fmap_app. simpl ids_upto. simpl rev. by rewrite IH.
Qed.

Lemma length_ids_upto (n : nat) : length (ids_upto n) = n.
Proof. induction n as [|n IH]; [done|]. simpl. by rewrite IH. Qed.

(** The [i]-th call to take effect (counting from 0) returns [i + 1]
    modulo 2^32. *)
Lemma allocation_order_lookup s (i : nat) :
  alloc_inv s → (i < length (returned s))%nat →
  allocation_order s !! i = Some (Z.of_nat (S i) mod uint32_modulus).
Proof.
  intros [_ Hr _] Hi. unfold allocation_order.
  rewrite Hr, rev_ids_upto, list_lookup_fmap, lookup_seq_lt by done.
  done.
Qed.

Lemma allocation_order_length s :
  length (allocation_order s) = length (returned s).
Proof. unfold allocation_order. apply length_rev. Qed.

(** A single goroutine that calls [getConnAutoIncId] [n] times in a row. *)
Lemma sequential_calls (n : nat) :
  alloc_reachable {| counter := Z.of_nat n mod uint32_modulus;
                     running := ∅;
                     returned := ids_upto n |}.
Proof.
  unfold alloc_reachable. induction n as [|n IH]; [apply rtc_refl|].
  eapply rtc_trans; [exact IH|].
  eapply rtc_l; [apply (alloc_call _ 0%nat); apply lookup_empty|].
  eapply rtc_l; [apply (alloc_load _ 0%nat); apply lookup_insert_eq|].
  eapply rtc_l; [|apply rtc_refl]. cbn [counter running returned].
  rewrite insert_insert_eq.
  match goal with
  | |- alloc_step ?s _ =>
      pose proof (alloc_cas_ok s 0%nat _ _ (lookup_insert_eq _ _ _) eq_refl) as Hs
  end.
  cbn [counter running returned] in Hs.
  rewrite delete_insert_eq, delete_empty, uint32_incr_of_nat in Hs.
  rewrite uint32_incr_of_nat. exact Hs.
Qed.

(** The uncontended call is the sequential [getConnAutoIncId]. *)
Lemma uncontended_call {A} (l : tcpServer A) (g : gid) ids :
  rtc alloc_step
    {| counter := lastId l; running := ∅; returned := ids |}
    {| counter := lastId (getConnAutoIncId l).2; running := ∅;
       returned := (getConnAutoIncId l).1 :: ids |}.
Proof.
  eapply rtc_l; [apply (alloc_call _ g); apply lookup_empty|].
  eapply rtc_l; [apply (alloc_load _ g); apply lookup_insert_eq|].
  eapply rtc_l; [|apply rtc_refl]. cbn [counter running returned].
  rewrite insert_insert_eq.
  match goal with
  | |- alloc_step ?s _ =>
      pose proof (alloc_cas_ok s g _ _ (lookup_insert_eq _ _ _) eq_refl) as Hs
  end.
  cbn [counter running returned] in Hs.
  rewrite delete_insert_eq, delete_empty in Hs. exact Hs.
Qed.

(** C4, as stated, fails: the counter is a [uint32].  After 2^32 - 1
    allocations it holds 4294967295, the next call returns 0, and the one
    after it returns 1 again, the id of the first connection. *)
Lemma ids_wrap_around :
  ¬ (∀ s, alloc_reachable s → ids_strictly_increasing s ∧ ids_never_reused s).
Proof.
  intros Hclaim.
  destruct (Z_of_nat_complete (uint32_modulus - 1)) as [n Hn]; [done|].
  set (s := {| counter := Z.of_nat (S n) mod uint32_modulus;
               running := ∅; returned := ids_upto (S n) |}).
  destruct (Hclaim s (sequential_calls (S n))) as [Hinc _].
  pose proof (alloc_reachable_inv s (sequential_calls (S n))) as Hinv.
  assert (Hlen : length (returned s) = S n) by apply length_ids_upto.
  assert (n ≠ 0)%nat as Hn0 by (intros ->; by vm_compute in Hn).
  pose proof (allocation_order_lookup s (n - 1) Hinv ltac:(lia)) as H1.
  pose proof (allocation_order_lookup s n Hinv ltac:(lia)) as H2.
  pose proof (Hinc (n - 1)%nat n _ _ ltac:(lia) H1 H2) as Hlt.
  replace (Z.of_nat (S (n - 1))) with (uint32_modulus - 1) in Hlt by lia.
  replace (Z.of_nat (S n)) with (uint32_modulus) in Hlt by lia.
  rewrite Z_mod_same_full in Hlt.
  rewrite Z.mod_small in Hlt by (unfold uint32_modulus; lia).
  unfold uint32_modulus in Hlt. lia.
Qed.

(** C4, amended.  In every interleaving of any number of concurrent calls
    the [i]-th call to take effect returns [i + 1] modulo 2^32; so while
    fewer than 2^32 ids have been handed out, the ids are strictly
    increasing in allocation order and pairwise distinct.  Nothing but a
    successful compare-and-swap writes the counter, so closing a connection
    gives no id back. *)
Theorem ids_increase_until_wrap_around (s : alloc_state) :
  alloc_reachable s →
  Z.of_nat (length (returned s)) < uint32_modulus →
  (∀ i : nat, (i < length (returned s))%nat →
     allocation_order s !! i = Some (Z.of_nat i + 1))
  ∧ ids_strictly_increasing s
  ∧ ids_never_reused s.
Proof.
  intros Hr Hlen. pose proof (alloc_reachable_inv s Hr) as Hinv.
  assert (Hlook : ∀ i : nat, (i < length (returned s))%nat →
            allocation_order s !! i = Some (Z.of_nat i + 1)).
  { intros i Hi. rewrite allocation_order_lookup by done.
    f_equal. rewrite Z.mod_small; lia. }
  split; [done|]. split.
  - intros i j x y Hij Hi Hj.
    assert (j < length (returned s))%nat
      by (rewrite <- allocation_order_length; by eapply lookup_lt_Some).
    rewrite Hlook in Hi, Hj by lia. simplify_eq. lia.
  - apply NoDup_alt. intros i j x Hi Hj.
    assert (i < length (returned s))%nat
      by (rewrite <- allocation_order_length; by eapply lookup_lt_Some).
    assert (j < length (returned s))%nat
      by (rewrite <- allocation_order_length; by eapply lookup_lt_Some).
    rewrite Hlook in Hi, Hj by lia. simplify_eq. lia.
Qed.

Lemma race_state_reachable : alloc_reachable race_state.
Proof.
  unfold alloc_reachable, race_state.
  eapply rtc_l; [apply (alloc_call _ 0%nat); done|].
  eapply rtc_l; [apply (alloc_call _ 1%nat); done|].
  eapply rtc_l; [apply (alloc_load _ 0%nat); done|].
  eapply rtc_l; [apply (alloc_load _ 1%nat); done|].
  eapply rtc_l; [apply (alloc_cas_ok _ 1%nat 0 1); done|].
  eapply rtc_l; [apply (alloc_cas_retry _ 0%nat 0 1); done|].
  eapply rtc_l; [apply (alloc_load _ 0%nat); done|].
  eapply rtc_l; [apply (alloc_cas_ok _ 0%nat 1 2); done|].
  simpl. apply rtc_refl.
Defined.

Lemma ids_increase_until_wrap_around_witness :
  alloc_reachable race_state
  ∧ Z.of_nat (length (returned race_state)) < uint32_modulus
  ∧ allocation_order race_state = [1; 2]
  ∧ ids_strictly_increasing race_state
  ∧ ids_never_reused race_state.
Proof.
  split; [exact race_state_reachable|]. split; [done|]. split; [done|].
  apply (ids_increase_until_wrap_around race_state race_state_reachable).
  done.
Defined.

End AllocatorSpec.

(** ** The server *)

Section ServerSpec.

Context {A : Type}.

Implicit Types (w : world A) (c : conn_state) (s : state A) (lg : list event).

Lemma log_emits es w : log (emits es w) = rev es ++ log w.
Proof.
  revert w. induction es as [|e es IH]; intros w; [done|].
  change (emits (e :: es) w) with (emits es (emit e w)).
  rewrite IH. simpl. by rewrite <- app_assoc.
Qed.

Lemma srv_emits es w : srv (emits es w) = srv w.
Proof.
  revert w. induction es as [|e es IH]; intros w; [done|].
  change (emits (e :: es) w) with (emits es (emit e w)). by rewrite IH.
Qed.

Lemma app_emits es w : app (emits es w) = app w.
Proof.
  revert w. induction es as [|e es IH]; intros w; [done|].
  change (emits (e :: es) w) with (emits es (emit e w)). by rewrite IH.
Qed.

Lemma conn_log_app p lg1 lg2 :
  conn_log p (lg1 ++ lg2) = conn_log p lg1 ++ conn_log p lg2.
Proof.
  induction lg1 as [|e lg1 IH]; [done|]. simpl.
  destruct (about p e); simpl; by rewrite IH.
Qed.

Lemma shutdown_log_app lg1 lg2 :
  shutdown_log (lg1 ++ lg2) = shutdown_log lg1 ++ shutdown_log lg2.
Proof.
  induction lg1 as [|e lg1 IH]; [done|]. simpl.
  destruct (is_shutdown_event e); simpl; by rewrite IH.
Qed.

(** *** One connection *)

Lemma reader_inv_ext (cc : option (CloseCallback A)) pc closed lg lg' :
  read_failures lg' = read_failures lg →
  close_signals lg' = close_signals lg →
  close_callbacks lg' = close_callbacks lg →
  reader_inv cc pc closed lg → reader_inv cc pc closed lg'.
Proof. unfold reader_inv. by intros -> -> ->. Qed.

Lemma conn_inv_new (cc : option (CloseCallback A)) (rc : option (ReceiveCallback A))
    sock newId :
  conn_inv cc rc (new_conn sock newId) [].
Proof. split; try done. by destruct rc. Qed.

Lemma same_config_refl (l : tcpServer A) : same_config l l.
Proof. by repeat split. Qed.

Lemma same_config_set_lock o (l : tcpServer A) : same_config l (set_lock o l).
Proof. by repeat split. Qed.

(** A step of connection [p] touches the log of no other connection,
    nothing of what [Shutdown] logs, and no field of the server but the
    mutex. *)
Lemma conn_step_frame p w c lbl w' c' :
  conn_step p (w, c) lbl (w', c') →
  same_config (srv w) (srv w')
  ∧ shutdown_log (log w') = shutdown_log (log w)
  ∧ (∀ q, q ≠ p → conn_log q (log w') = conn_log q (log w)).
Proof.
  intros Hstep.
  assert (Hne : ∀ q, q ≠ p → Nat.eqb p q = false)
    by (intros q Hq; apply Nat.eqb_neq; congruence).
  inversion Hstep; subst; clear Hstep;
    try (split; [apply same_config_refl|]; split; [done|done]).
  - (* drain *)
    split; [unfold same_config; simpl; by rewrite srv_emits|]. simpl. rewrite log_emits.
    destruct r as [[[] bt]|]; simpl; (split; [done|]);
      intros q Hq; by rewrite ?(Hne q Hq).
  - split; [done|]. split; [done|]. intros q Hq. simpl. by rewrite (Hne q Hq).
  - split; [done|]. split; [done|]. intros q Hq. simpl. by rewrite (Hne q Hq).
  - destruct e; simpl; (split; [done|]); (split; [done|]);
      intros q Hq; simpl; by rewrite (Hne q Hq).
  - unfold close_waitConn in *. simpl in *.
    destruct (chan_close (waitConn (obj c))); simplify_eq; simpl;
      (split; [done|]); (split; [done|]); intros q Hq; simpl;
      by rewrite ?(Hne q Hq).
  - unfold call_closeCallback. destruct (closeCallback (srv w)); simpl;
      (split; [done|]); (split; [done|]); intros q Hq; simpl;
      by rewrite ?(Hne q Hq).
  - split; [unfold same_config; simpl; by rewrite srv_emits|]. simpl. rewrite log_emits.
    destruct r as [[[] bt]|]; simpl; (split; [done|]);
      intros q Hq; by rewrite ?(Hne q Hq).
  - unfold handelReceive. simpl. destruct (receiveCallback (srv w)); simpl;
      (split; [done|]); (split; [done|]); intros q Hq; simpl;
      by rewrite ?(Hne q Hq).
  - split; [apply same_config_set_lock|]. done.
  - unfold ConsumeInput_locked. destruct (decide _); [by split|].
    destruct werr; simpl; (split; [done|]); done.
Qed.

Lemma conn_step_inv p w c lbl w' c' :
  conn_step p (w, c) lbl (w', c') →
  conn_inv (closeCallback (srv w)) (receiveCallback (srv w)) c
    (conn_log p (log w)) →
  conn_inv (closeCallback (srv w)) (receiveCallback (srv w)) c'
    (conn_log p (log w'))
  ∧ panics (log w') = panics (log w).
Proof.
  intros Hstep [Hin Hout Hpark Hrd Hread Hsent Hrecv Hdr].
  inversion Hstep; subst; clear Hstep.
  all: repeat match goal with
       | H : chan_recv _ = _ |- _ => destruct_recv H
       | x : Empty_set |- _ => destruct x
       end.
  all: try match goal with
       | H : rd _ = _ |- _ => rewrite H in Hrd, Hpark
       end.
  all: simpl in *.
  all: try (exfalso; destruct_and?; congruence).
  all: rewrite ?Nat.eqb_refl.
  - (* reader_default *)
    split; [|done]. split; simpl; rew_chan; done.
  - (* reader_read_ok *)
    unfold chan_send in H6. rewrite Hout in H6. simplify_eq.
    split; [|done]. split; simpl; try done.
    + rewrite Hpark. simpl. eauto.
    + rewrite Hread, Hpark. done.
  - (* reader_read_ok_panic *)
    unfold chan_send in H6. by rewrite Hout in H6.
  - (* reader_read_err *)
    destruct Hrd as (Hcl & Hf & Hs & Hc).
    destruct e; simpl; rewrite ?Nat.eqb_refl;
      (split; [|done]); split; simpl; try done;
      rewrite ?Hf, ?Hs, ?Hc; eauto 10.
    by exists ErrOther.
  - (* reader_close *)
    destruct Hrd as (Hcl & Hf & Hs & Hc).
    unfold close_waitConn, chan_close in H3. simpl in H3.
    rewrite Hcl in H3. simplify_eq. simpl. rewrite Nat.eqb_refl.
    split; [|done]. split; simpl; try done.
    rewrite Hs, Hc. done.
  - (* reader_callback *)
    destruct Hrd as (Hcl & (e & Hf & Hfl) & Hs & Hc).
    unfold call_closeCallback.
    destruct (closeCallback (srv w)); simpl; rewrite ?Nat.eqb_refl;
      (split; [|done]); split; simpl; try done;
      exists e; rewrite Hfl, ?Hc; done.
  - (* disp_exit *)
    unfold in_dispatch in *. rewrite H3 in *.
    split; [|done]. split; simpl; rew_chan; done.
  - (* disp_recv *)
    unfold in_dispatch in *. rewrite H3 in *.
    destruct (rd c) eqn:Hpc; simpl in Hpark; try done.
    destruct Hpark as [bt Hbt]. simplify_eq. simpl in *.
    split; [|done]. split; simpl; try done.
    by rewrite Hsent.
  - (* disp_handle *)
    unfold in_dispatch in *. rewrite H2 in *. unfold handelReceive.
    simpl.
    destruct (receiveCallback (srv w)) eqn:Hrc; simpl; rewrite ?Nat.eqb_refl.
    all: split; [|done]; split; simpl; try done.
    all: try (eapply reader_inv_ext; [..|exact Hrd]; done).
    all: rewrite ?Hread, ?Hsent, ?Hrecv; try done.
  - (* sender_exit *)
    split; [|done]. split; simpl; rew_chan; done.
  - (* sender_recv *)
    split; [|done]. split; simpl; rew_chan; done.
  - (* sender_lock *)
    split; [|done]. split; simpl; rew_chan; done.
  - (* sender_locked *)
    unfold ConsumeInput_locked.
    destruct (decide _); [split; [|done]; split; simpl; rew_chan; done|].
    destruct werr; simpl; (split; [|done]); split; simpl; rew_chan; done.
Qed.

(** *** The server *)

Lemma conn_log_quiet q evs lg :
  Forall (λ e, about q e = false) evs → conn_log q (evs ++ lg) = conn_log q lg.
Proof.
  induction 1 as [|e evs He _ IH]; [done|]. simpl. by rewrite He.
Qed.

Lemma panics_app lg1 lg2 : panics (lg1 ++ lg2) = panics lg1 ++ panics lg2.
Proof. apply omap_app. Qed.

Lemma about_sock_closes q ps :
  Forall (λ e, about q e = false) (rev (EvSockClose <$> ps)).
Proof.
  apply Forall_rev, Forall_fmap, Forall_forall. by intros.
Qed.

Lemma panics_sock_closes ps : panics (rev (EvSockClose <$> ps)) = [].
Proof.
  induction ps as [|p ps IH]; [done|].
  rewrite fmap_cons. simpl rev. by rewrite panics_app, IH.
Qed.

Lemma shutdown_log_sock_closes ps :
  shutdown_log (rev (EvSockClose <$> ps)) = rev (EvSockClose <$> ps).
Proof.
  induction ps as [|p ps IH]; [done|].
  rewrite fmap_cons. simpl rev. by rewrite shutdown_log_app, IH.
Qed.

(** [Shutdown] on a server that is already stopping does nothing. *)
Lemma Shutdown_locked_stopped g w :
  stop (srv w) ≠ 0 → Shutdown_locked g w = w.
Proof. intros Hs. unfold Shutdown_locked. by rewrite decide_True. Qed.

(** The first [Shutdown]: it sets [stop], closes the socket of every
    registered connection and then the listener. *)
Lemma Shutdown_locked_running g w :
  stop (srv w) = 0 → is_Some (listener (srv w)) →
  srv (Shutdown_locked g w) = set_stop 2 (srv w)
  ∧ app (Shutdown_locked g w) = app w
  ∧ log (Shutdown_locked g w) =
      EvListenerClose :: rev (EvSockClose <$> range_conns (srv w))
        ++ EvStopSet g :: log w.
Proof.
  intros Hs [h Hl]. unfold Shutdown_locked.
  rewrite decide_False by (rewrite Hs; by intros ?).
  unfold close_listener, close_conns. simpl.
  rewrite srv_emits. simpl. rewrite Hl. simpl.
  rewrite srv_emits, app_emits, log_emits. done.
Qed.

Section Reachable.

Context (l0 : tcpServer A) (a0 : A).
Hypothesis Hstarted : started l0.

Lemma inv_conns_init : inv_conns l0 (init l0 a0).
Proof. by split. Qed.

Lemma conn_inv_set_input (cc : option (CloseCallback A))
    (rc : option (ReceiveCallback A)) c lg ch :
  ch_closed ch = false →
  conn_inv cc rc c lg → conn_inv cc rc (set_input ch c) lg.
Proof. intros Hch []. by split. Qed.

Lemma log_after_label lbl w cs :
  log (after_label lbl w cs).1 =
    match lbl with Some g => EvSendReturn g :: log w | None => log w end.
Proof. by destruct lbl. Qed.

Lemma srv_after_label lbl w cs : srv (after_label lbl w cs).1 = srv w.
Proof. by destruct lbl. Qed.

Lemma conn_log_after_label q lbl w cs :
  conn_log q (log (after_label lbl w cs).1) = conn_log q (log w).
Proof. by destruct lbl. Qed.

Lemma panics_after_label lbl w cs :
  panics (log (after_label lbl w cs).1) = panics (log w).
Proof. by destruct lbl. Qed.

Lemma inv_conns_step s s' : step s s' → inv_conns l0 s → inv_conns l0 s'.
Proof.
  intros Hstep [Hl Hcc Hrc Hconn Hfresh Hpan].
  inversion Hstep; subst; clear Hstep.
  - (* step_conn *)
    pose proof (conn_step_frame _ _ _ _ _ _ H0) as ((Hl' & Hcc' & Hrc' & _) & _ & Hfr).
    pose proof (Hconn _ _ H) as Hc. rewrite <- Hcc, <- Hrc in Hc.
    pose proof (conn_step_inv _ _ _ _ _ _ H0 Hc) as [Hc' Hpan'].
    assert (p < length (heap s))%nat as Hp by (by eapply lookup_lt_Some).
    split; simpl; rewrite ?srv_after_label, ?conn_log_after_label,
      ?panics_after_label; try congruence.
    + intros q cq Hq. destruct (decide (q = p)) as [->|Hne].
      * rewrite list_lookup_insert_eq in Hq by done. simplify_eq.
        by rewrite conn_log_after_label, <- Hcc, <- Hrc.
      * rewrite list_lookup_insert_ne in Hq by done.
        rewrite conn_log_after_label, Hfr by done. by apply Hconn.
    + intros q Hq. rewrite length_insert in Hq.
      rewrite conn_log_after_label, Hfr by lia. by apply Hfresh.
  - by split.
  - split; simpl; try done; by destruct isOpError.
  - by split.
  - (* step_accept_locked *)
    unfold accept_locked. destruct (decide _); [by split|].
    split; simpl; try done.
    + intros q cq Hq. destruct (decide (q < length (heap s))%nat).
      * rewrite lookup_app_l in Hq by done. by apply Hconn.
      * apply lookup_lt_Some in Hq as Hlt. rewrite length_app in Hlt.
        simpl in Hlt. assert (q = length (heap s)) as -> by lia.
        rewrite list_lookup_middle in Hq by done. simplify_eq.
        rewrite Hfresh by done. apply conn_inv_new.
    + intros q Hq. rewrite length_app in Hq. simpl in Hq.
      apply Hfresh. lia.
  - (* step_call *)
    split; simpl; rewrite ?srv_emits, ?log_emits; try done.
    + intros q cq Hq. rewrite conn_log_quiet; [by apply Hconn|].
      destruct fc; simpl; try done. by destruct (getConnById _ _); repeat constructor.
    + intros q Hq. rewrite conn_log_quiet; [by apply Hfresh|].
      destruct fc; simpl; try done. by destruct (getConnById _ _); repeat constructor.
    + rewrite panics_app, Hpan.
      destruct fc; simpl; try done. by destruct (getConnById _ _).
  - (* step_offer *)
    assert (p < length (heap s))%nat as Hp by (by eapply lookup_lt_Some).
    split; simpl; try done.
    + intros q cq Hq. destruct (decide (q = p)) as [->|Hne].
      * rewrite list_lookup_insert_eq in Hq by done. simplify_eq.
        apply conn_inv_set_input; [|by apply Hconn].
        unfold chan_send in H1. by destruct (ch_closed _); simplify_eq.
      * rewrite list_lookup_insert_ne in Hq by done. by apply Hconn.
    + intros q Hq. rewrite length_insert in Hq. by apply Hfresh.
  - (* step_offer_panic *)
    pose proof (ci_input_open _ _ _ _ (Hconn _ _ H0)) as Hopen.
    unfold chan_send in H1. by rewrite Hopen in H1.
  - by split.
  - (* step_shutdown_locked *)
    destruct (decide (stop (srv (wld s)) = 0)) as [Hs|Hs].
    + destruct (Shutdown_locked_running g (wld s) Hs) as (Hsrv & Happ & Hlog).
      { rewrite Hl. apply Hstarted. }
      split; simpl; rewrite ?Hsrv, ?Hlog; try done.
      * intros q cq Hq. simpl.
        rewrite conn_log_quiet by apply about_sock_closes.
        by apply Hconn.
      * intros q Hq. simpl.
        rewrite conn_log_quiet by apply about_sock_closes.
        by apply Hfresh.
      * simpl. by rewrite panics_app, panics_sock_closes.
    + rewrite Shutdown_locked_stopped by done. by split.
Qed.

Lemma sd_resume_reader r c : sd (resume_reader r c) = sd c.
Proof. unfold resume_reader. by destruct r, (rd c). Qed.

Lemma input_resume_reader r c :
  input (obj (resume_reader r c)) = input (obj c).
Proof. unfold resume_reader. by destruct r, (rd c). Qed.

(** What a step of a connection does to the mutex: the sender takes it
    when it is free, and gives it back only after its own [Lock]. *)
Lemma conn_step_lock p w c lbl w' c' :
  conn_step p (w, c) lbl (w', c') →
  (∀ m, sd c' = SLocked m →
     (lock (srv w) = None ∧ lock (srv w') = Some (OwnSender p))
     ∨ (sd c = SLocked m ∧ lock (srv w') = lock (srv w)))
  ∧ (lock (srv w') = lock (srv w)
     ∨ (lock (srv w) = None ∧ lock (srv w') = Some (OwnSender p))
     ∨ (∃ m, sd c = SLocked m ∧ lock (srv w') = None)).
Proof.
  intros Hstep. inversion Hstep; subst; clear Hstep; simpl.
  all: try match goal with
       | H : close_waitConn _ _ _ _ = _ |- _ =>
           unfold close_waitConn in H; simpl in H;
           destruct (chan_close _); simplify_eq; simpl
       end.
  all: unfold call_closeCallback, handelReceive, ConsumeInput_locked; simpl.
  all: try match goal with e : read_err |- _ => destruct e; simpl end.
  all: repeat match goal with
       | |- context [closeCallback ?l] => destruct (closeCallback l); simpl
       | |- context [receiveCallback ?l] => destruct (receiveCallback l); simpl
       | |- context [decide ?P] => destruct (decide P); simpl
       | werr : bool |- _ => destruct werr; simpl
       end.
  all: rewrite ?srv_emits; simpl.
  all: split;
    [intros m Hm; rewrite ?sd_resume_reader in Hm; simpl in Hm;
     first [by left | right; by split | done]
    |first [by left | right; left; by split | right; right; by eauto]].
Qed.

(** What a step of a connection does to the queue of [input]: nothing,
    unless the sender takes the value of the first parked caller. *)
Lemma conn_step_input p w c lbl w' c' :
  conn_step p (w, c) lbl (w', c') →
  (lbl = None ∧ input (obj c') = input (obj c))
  ∨ (∃ g v q, lbl = Some g ∧ sd c = SSelect ∧ sd c' = SLock v
       ∧ ch_sendq (input (obj c)) = (g, v) :: q
       ∧ ch_sendq (input (obj c')) = q).
Proof.
  intros Hstep. inversion Hstep; subst; clear Hstep; simpl.
  all: try match goal with
       | H : close_waitConn _ _ _ _ = _ |- _ =>
           unfold close_waitConn in H; simpl in H;
           destruct (chan_close _); simplify_eq; simpl
       end.
  all: rewrite ?input_resume_reader; simpl.
  all: try (left; by split).
  destruct_recv H5; [by left|]. right. simpl. eauto 10.
Qed.

Lemma conn_step_sd_heap p w c lbl w' c' :
  conn_step p (w, c) lbl (w', c') → sd c = SDone → sd c' = SDone ∧ lbl = None.
Proof.
  intros Hstep Hsd. inversion Hstep; subst; clear Hstep; simpl.
  all: try match goal with
       | H : close_waitConn _ _ _ _ = _ |- _ =>
           unfold close_waitConn in H; simpl in H;
           destruct (chan_close _); simplify_eq; simpl
       end.
  all: rewrite ?sd_resume_reader; simpl; try done; congruence.
Qed.

Lemma inv_lock_init : inv_lock (init l0 a0).
Proof. by split. Qed.

Lemma inv_lock_step s s' : step s s' → inv_lock s → inv_lock s'.
Proof.
  intros Hstep [Hsd Hacc].
  inversion Hstep; subst; clear Hstep.
  - (* step_conn *)
    pose proof (conn_step_lock _ _ _ _ _ _ H0) as [Hm Hl].
    assert (p < length (heap s))%nat as Hp by (by eapply lookup_lt_Some).
    split; simpl; rewrite srv_after_label.
    + intros q cq m Hq Hlocked. destruct (decide (q = p)) as [->|Hne].
      * rewrite list_lookup_insert_eq in Hq by done. simplify_eq.
        destruct (Hm _ Hlocked) as [[_ ?]|[Hold Hsame]]; [done|].
        rewrite Hsame. by eapply Hsd.
      * rewrite list_lookup_insert_ne in Hq by done.
        pose proof (Hsd _ _ _ Hq Hlocked) as Hown.
        destruct Hl as [Hsame|[[Hfree _]|(m' & Hm' & _)]].
        -- by rewrite Hsame.
        -- congruence.
        -- pose proof (Hsd _ _ _ H Hm'). congruence.
    + intros sock Ha. pose proof (Hacc _ Ha) as Hown.
      destruct Hl as [Hsame|[[Hfree _]|(m' & Hm' & _)]].
      * by rewrite Hsame.
      * congruence.
      * pose proof (Hsd _ _ _ H Hm'). congruence.
  - by split.
  - by split.
  - (* step_accept_lock *)
    split; simpl; [|done].
    intros q cq m Hq Hlocked. pose proof (Hsd _ _ _ Hq Hlocked). congruence.
  - (* step_accept_locked *)
    pose proof (Hacc _ H) as Hown.
    split; simpl; [|done].
    intros q cq m Hq Hlocked. exfalso.
    unfold accept_locked in Hq. destruct (decide _); simpl in Hq.
    + pose proof (Hsd _ _ _ Hq Hlocked). congruence.
    + apply lookup_app_Some in Hq as [Hq|[_ Hq]].
      * pose proof (Hsd _ _ _ Hq Hlocked). congruence.
      * apply list_lookup_singleton_Some in Hq as [_ <-]. done.
  - (* step_call *)
    split; simpl; rewrite srv_emits; done.
  - (* step_offer *)
    assert (p < length (heap s))%nat as Hp by (by eapply lookup_lt_Some).
    split; simpl; [|done].
    intros q cq m Hq Hlocked. destruct (decide (q = p)) as [->|Hne].
    + rewrite list_lookup_insert_eq in Hq by done. simplify_eq.
      by eapply Hsd.
    + rewrite list_lookup_insert_ne in Hq by done. by eapply Hsd.
  - by split.
  - (* step_shutdown_lock *)
    split; simpl.
    + intros q cq m Hq Hlocked. pose proof (Hsd _ _ _ Hq Hlocked). congruence.
    + intros sock Ha. pose proof (Hacc _ Ha). congruence.
  - (* step_shutdown_locked *)
    split; simpl.
    + intros q cq m Hq Hlocked. pose proof (Hsd _ _ _ Hq Hlocked). congruence.
    + intros sock Ha. pose proof (Hacc _ Ha). congruence.
Qed.

Lemma inv_registry_init : inv_registry (init l0 a0).
Proof.
  destruct Hstarted as (_ & Hc & _).
  split; simpl; intros *; by rewrite Hc, lookup_empty.
Qed.

Lemma inv_shutdown_init : inv_shutdown (init l0 a0).
Proof. left. split; [apply Hstarted|done]. Qed.

Lemma inv_callers_init : inv_callers (init l0 a0).
Proof.
  split; simpl; intros *; try (by rewrite lookup_nil).
  by rewrite lookup_empty.
Qed.

Lemma srv_Shutdown_locked g w :
  same_config (srv w) (srv (Shutdown_locked g w))
  ∨ (stop (srv w) = 0 ∧ srv (Shutdown_locked g w) = set_stop 2 (srv w)).
Proof.
  unfold Shutdown_locked. destruct (decide _) as [|Hs]; [left; apply same_config_refl|].
  right. split; [by destruct (decide (stop (srv w) = 0))|].
  unfold close_listener, close_conns. simpl. rewrite srv_emits. simpl.
  destruct (listener (srv w)); simpl; by rewrite srv_emits.
Qed.

Lemma conns_Shutdown_locked g w :
  conns (srv (Shutdown_locked g w)) = conns (srv w).
Proof.
  destruct (srv_Shutdown_locked g w) as [(_ & _ & _ & Hc & _)|[_ ->]]; done.
Qed.

Lemma inv_registry_step s s' : step s s' → inv_registry s → inv_registry s'.
Proof.
  intros Hstep [Hb Hi].
  inversion Hstep; subst; clear Hstep.
  - pose proof (conn_step_frame _ _ _ _ _ _ H0) as ((_ & _ & _ & Hc & _) & _).
    split; simpl; rewrite srv_after_label, Hc, ?length_insert; done.
  - by split.
  - by split.
  - by split.
  - (* step_accept_locked *)
    unfold accept_locked. destruct (decide _); [by split|].
    split; simpl.
    + intros i p. rewrite length_app, lookup_insert. simpl.
      case_decide; [intros [= <-]; lia|]. intros Hp. apply Hb in Hp. lia.
    + intros i j p. rewrite !lookup_insert.
      repeat case_decide; subst; try done.
      * intros [= <-] Hp. apply Hb in Hp. lia.
      * intros Hp [= <-]. apply Hb in Hp. lia.
      * apply Hi.
  - split; simpl; rewrite srv_emits; done.
  - split; simpl; rewrite ?length_insert; done.
  - by split.
  - by split.
  - split; simpl; rewrite conns_Shutdown_locked; done.
Qed.

Lemma inv_shutdown_step s s' :
  step s s' → inv_conns l0 s → inv_shutdown s → inv_shutdown s'.
Proof.
  intros Hstep Hic Hsh. unfold inv_shutdown in *.
  inversion Hstep; subst; clear Hstep; simpl.
  - pose proof (conn_step_frame _ _ _ _ _ _ H0)
      as ((_ & _ & _ & Hc & _ & Hs) & Hlog & _).
    rewrite srv_after_label, Hs.
    assert (shutdown_log (log (after_label lbl w' (callers s)).1)
            = shutdown_log (log (wld s))) as -> by (by destruct lbl).
    unfold range_conns in *. by rewrite Hc.
  - done.
  - by destruct isOpError.
  - done.
  - unfold accept_locked. destruct (decide _) as [Hs|Hs]; [done|].
    simpl. left. destruct Hsh as [[? ?]|[? _]]; [done|].
    destruct Hs. lia.
  - rewrite srv_emits, log_emits, shutdown_log_app.
    assert (shutdown_log (rev (call_events (srv (wld s)) fc)) = []) as ->; [|done].
    destruct fc; simpl; try done. by destruct (getConnById _ _).
  - done.
  - done.
  - done.
  - (* step_shutdown_locked *)
    destruct Hsh as [[Hs Hlog]|(Hs & g' & later & Hlog)].
    + right.
      destruct (Shutdown_locked_running g (wld s) Hs) as (Hsrv & Happ & Hlog').
      { rewrite (ic_listener _ Hic). apply Hstarted. }
      rewrite Hsrv, Hlog'. split; [done|]. exists g, []. simpl.
      rewrite shutdown_log_app, shutdown_log_sock_closes. simpl.
      by rewrite Hlog.
    + right. rewrite Shutdown_locked_stopped by (rewrite Hs; done).
      split; [done|]. exists g', (g :: later). simpl. by rewrite Hlog.
Qed.

Lemma inv_callers_step s s' : step s s' → inv_callers s → inv_callers s'.
Proof.
  intros Hstep [Hpk Hnd Htg].
  inversion Hstep; subst; clear Hstep.
  - (* step_conn *)
    assert (p < length (heap s))%nat as Hp by (by eapply lookup_lt_Some).
    destruct (conn_step_input _ _ _ _ _ _ H0)
      as [[-> Hin]|(g & v & q & -> & _ & _ & Hq & Hq')].
    + split; simpl.
      * intros q cq g v Hcq. destruct (decide (q = p)) as [->|Hne].
        -- rewrite list_lookup_insert_eq in Hcq by done. simplify_eq.
           rewrite Hin. by apply Hpk.
        -- rewrite list_lookup_insert_ne in Hcq by done. by apply Hpk.
      * intros q cq Hcq. destruct (decide (q = p)) as [->|Hne].
        -- rewrite list_lookup_insert_eq in Hcq by done. simplify_eq.
           rewrite Hin. by eapply Hnd.
        -- rewrite list_lookup_insert_ne in Hcq by done. by eapply Hnd.
      * intros g q v rest. rewrite length_insert. apply Htg.
    + destruct (Hpk p c g v H) as [rest Hg]; [rewrite Hq; left|].
      pose proof (Hnd _ _ H) as Hnd'. rewrite Hq in Hnd'.
      simpl in Hnd'. apply NoDup_cons in Hnd' as [Hnotin Hnd'].
      split; simpl; [unfold resume_caller; rewrite Hg| |].
      * intros q' cq g' v' Hcq Hel. destruct (decide (q' = p)) as [->|Hne].
        -- rewrite list_lookup_insert_eq in Hcq by done.
           injection Hcq as <-. rewrite Hq' in Hel.
           assert (g' ≠ g) as Hgg.
           { intros ->. apply Hnotin. apply list_elem_of_fmap. by exists (g, v'). }
           rewrite lookup_insert_ne by done.
           apply (Hpk _ _ _ _ H). rewrite Hq. by right.
        -- rewrite list_lookup_insert_ne in Hcq by done.
           destruct (Hpk _ _ _ _ Hcq Hel) as [rest' Hg'].
           assert (g' ≠ g) as Hgg by (intros ->; congruence).
           rewrite lookup_insert_ne by done. eauto.
      * intros q' cq Hcq. destruct (decide (q' = p)) as [->|Hne].
        -- rewrite list_lookup_insert_eq in Hcq by done.
           injection Hcq as <-. by rewrite Hq'.
        -- rewrite list_lookup_insert_ne in Hcq by done. by eapply Hnd.
      * intros g' q' v' rest'. rewrite length_insert.
        unfold resume_caller. rewrite Hg. rewrite lookup_insert.
        case_decide; [done|]. apply Htg.
  - by split.
  - by split.
  - by split.
  - (* step_accept_locked *)
    unfold accept_locked. destruct (decide _); [by split|].
    split; simpl.
    + intros q cq g v Hcq. apply lookup_app_Some in Hcq as [Hcq|[_ Hcq]].
      * by apply Hpk.
      * apply list_lookup_singleton_Some in Hcq as [_ <-]. simpl.
        by intros ?%elem_of_nil.
    + intros q cq Hcq. apply lookup_app_Some in Hcq as [Hcq|[_ Hcq]].
      * by eapply Hnd.
      * apply list_lookup_singleton_Some in Hcq as [_ <-]. simpl. constructor.
    + intros g q v rest Hg. apply Htg in Hg. rewrite length_app. lia.
  - (* step_call *)
    split; simpl; [|done|].
    + intros q cq g' v Hcq Hel. destruct (Hpk _ _ _ _ Hcq Hel) as [rest Hg'].
      rewrite lookup_insert_ne by congruence. eauto.
    + intros g' q v rest. rewrite lookup_insert.
      case_decide; [done|]. apply Htg.
  - (* step_offer *)
    assert (p < length (heap s))%nat as Hp by (by eapply lookup_lt_Some).
    unfold chan_send in H1. destruct (ch_closed (input (obj c))); simplify_eq.
    split; simpl.
    + intros q cq g' v' Hcq Hel. destruct (decide (q = p)) as [->|Hne].
      * rewrite list_lookup_insert_eq in Hcq by done. simplify_eq.
        simpl in Hel. apply elem_of_app in Hel as [Hel|Hel].
        -- destruct (Hpk _ _ _ _ H0 Hel) as [rest' Hg'].
           rewrite lookup_insert_ne by congruence. eauto.
        -- apply list_elem_of_singleton in Hel. simplify_eq.
           rewrite lookup_insert_eq. eauto.
      * rewrite list_lookup_insert_ne in Hcq by done.
        destruct (Hpk _ _ _ _ Hcq Hel) as [rest' Hg'].
        rewrite lookup_insert_ne by congruence. eauto.
    + intros q cq Hcq. destruct (decide (q = p)) as [->|Hne].
      * rewrite list_lookup_insert_eq in Hcq by done. simplify_eq.
        simpl. rewrite fmap_app. apply NoDup_app. split; [by eapply Hnd|].
        split; [|apply NoDup_singleton].
        intros g' Hg' Hg''. simpl in Hg''.
        apply list_elem_of_singleton in Hg'' as ->.
        apply list_elem_of_fmap in Hg' as [[g1 v1] [Heq Hel]].
        simpl in Heq. subst g1.
        destruct (Hpk _ _ _ _ H0 Hel) as [rest' Hg']. congruence.
      * rewrite list_lookup_insert_ne in Hcq by done. by eapply Hnd.
    + intros g' q v' rest'. rewrite length_insert, lookup_insert.
      case_decide; [intros [= <- <- <-]; done|apply Htg].
  - (* step_offer_panic *)
    split; simpl; [|done|].
    + intros q cq g' v' Hcq Hel. destruct (Hpk _ _ _ _ Hcq Hel) as [rest' Hg'].
      rewrite lookup_insert_ne by congruence. eauto.
    + intros g' q v' rest'. rewrite lookup_insert.
      case_decide; [done|apply Htg].
  - by split.
  - by split.
Qed.

(** *** Every reachable state satisfies the invariants *)

Lemma inv_init : inv l0 (init l0 a0).
Proof.
  split; auto using inv_conns_init, inv_lock_init, inv_registry_init,
    inv_shutdown_init, inv_callers_init.
Qed.

Lemma inv_step s s' : step s s' → inv l0 s → inv l0 s'.
Proof.
  intros Hstep [Hc Hl Hr Hs Hk].
  split; eauto using inv_conns_step, inv_lock_step, inv_registry_step,
    inv_shutdown_step, inv_callers_step.
Qed.

Lemma inv_steps s s' : rtc step s s' → inv l0 s → inv l0 s'.
Proof. induction 1; eauto using inv_step. Qed.

Lemma reachable_inv s : reachable l0 a0 s → inv l0 s.
Proof. intros Hr. eapply inv_steps; [exact Hr|apply inv_init]. Qed.

Lemma reachable_steps s s' :
  reachable l0 a0 s → rtc step s s' → reachable l0 a0 s'.
Proof. unfold reachable. apply rtc_trans. Qed.

(** The log only grows, and so does the heap. *)
Lemma conn_step_log p w c lbl w' c' :
  conn_step p (w, c) lbl (w', c') → ∃ evs, log w' = evs ++ log w.
Proof.
  intros Hstep. inversion Hstep; subst; clear Hstep; simpl.
  all: try match goal with
       | H : close_waitConn _ _ _ _ = _ |- _ =>
           unfold close_waitConn in H; simpl in H;
           destruct (chan_close _); simplify_eq; simpl
       end.
  all: unfold call_closeCallback, handelReceive, ConsumeInput_locked; simpl.
  all: try match goal with e : read_err |- _ => destruct e; simpl end.
  all: repeat match goal with
       | |- context [closeCallback ?l] => destruct (closeCallback l); simpl
       | |- context [receiveCallback ?l] => destruct (receiveCallback l); simpl
       | |- context [decide ?P] => destruct (decide P); simpl
       | werr : bool |- _ => destruct werr; simpl
       end.
  all: rewrite ?log_emits.
  all: try (by exists []).
  all: try (by eexists [_]).
  all: try (by eexists [_; _]).
  all: try (by eexists [_; _; _]).
  - eexists (_ :: rev _). by simpl.
  - by eexists (rev _).
Qed.

Lemma step_log s s' :
  step s s' → ∃ evs, log (wld s') = evs ++ log (wld s).
Proof.
  intros Hstep. inversion Hstep; subst; clear Hstep; simpl.
  - destruct (conn_step_log _ _ _ _ _ _ H0) as [evs Hevs].
    rewrite log_after_label, Hevs.
    destruct lbl; [by eexists (_ :: _)|by eexists].
  - by exists [].
  - by eexists [_].
  - by exists [].
  - unfold accept_locked. destruct (decide _); simpl; by eexists [_].
  - rewrite log_emits. by eexists.
  - by exists [].
  - by eexists [_].
  - by exists [].
  - unfold Shutdown_locked. destruct (decide _); simpl; [by eexists [_]|].
    unfold close_listener, close_conns. rewrite srv_emits. simpl.
    destruct (listener _); simpl; rewrite log_emits; simpl;
      eexists (_ :: _ :: rev _ ++ [_]); simpl; by rewrite <- app_assoc.
Qed.

Lemma steps_log s s' :
  rtc step s s' → ∃ evs, log (wld s') = evs ++ log (wld s).
Proof.
  induction 1 as [|s1 s2 s3 H12 _ [evs IH]]; [by exists []|].
  destruct (step_log _ _ H12) as [evs' H']. exists (evs ++ evs').
  by rewrite IH, H', app_assoc.
Qed.

Lemma step_heap s s' p c :
  step s s' → heap s !! p = Some c → is_Some (heap s' !! p).
Proof.
  intros Hstep Hp. apply lookup_lt_is_Some.
  apply lookup_lt_Some in Hp.
  inversion Hstep; subst; clear Hstep; simpl; rewrite ?length_insert; try done.
  unfold accept_locked. destruct (decide _); simpl; [done|].
  rewrite length_app. lia.
Qed.

Lemma steps_heap s s' p c :
  rtc step s s' → heap s !! p = Some c → is_Some (heap s' !! p).
Proof.
  intros Hsteps. revert c.
  induction Hsteps as [|s1 s2 s3 H12 _ IH]; intros c Hp; [eauto|].
  destruct (step_heap _ _ _ _ H12 Hp) as [c' Hc']. eauto.
Qed.

(** ** The close signal and the close callback *)

(** C1, amended.  For every connection of every reachable state: the close
    signal was closed at most once (and [close] never panicked), the close
    callback was called at most once, and never before the signal.  When
    the reader has returned, both happened exactly once if the read that
    ended it failed with [io.EOF] or a [*net.OpError] and a callback is
    registered, in which case the callback got the flags of that error; and
    neither happened if the read failed with any other error. *)
Theorem close_fires_at_most_once s p c :
  reachable l0 a0 s →
  heap s !! p = Some c →
  let lg := conn_log p (log (wld s)) in
  (length (close_signals lg) ≤ 1)%nat
  ∧ (length (close_callbacks lg) ≤ length (close_signals lg))%nat
  ∧ (ch_closed (waitConn (obj c)) = true ↔ length (close_signals lg) = 1%nat)
  ∧ panics (log (wld s)) = []
  ∧ (rd c = RDone →
     ∃ e, read_failures lg = [e] ∧
       match close_flags e with
       | Some fl =>
           length (close_signals lg) = 1%nat
           ∧ close_callbacks lg =
               match closeCallback l0 with Some _ => [fl] | None => [] end
       | None => close_signals lg = [] ∧ close_callbacks lg = []
       end).
Proof.
  intros Hr Hp lg. pose proof (reachable_inv s Hr) as [Hc _ _ _ _].
  pose proof (ic_conn _ Hc _ _ Hp) as Hci.
  pose proof (ci_reader _ _ _ _ Hci) as Hrd. fold lg in Hrd.
  split_and!.
  - unfold reader_inv in Hrd. destruct (rd c).
    1-4: destruct Hrd as (_ & _ & -> & _); simpl; lia.
    + destruct Hrd as (_ & _ & -> & _). lia.
    + destruct Hrd as (e & _ & He). destruct (close_flags e).
      * destruct He as (_ & -> & _). lia.
      * destruct He as (_ & -> & _). simpl. lia.
  - unfold reader_inv in Hrd. destruct (rd c).
    1-4: destruct Hrd as (_ & _ & _ & ->); simpl; lia.
    + destruct Hrd as (_ & _ & _ & ->). simpl. lia.
    + destruct Hrd as (e & _ & He). destruct (close_flags e).
      * destruct He as (_ & -> & ->). by destruct (closeCallback l0); simpl; lia.
      * destruct He as (_ & _ & ->). simpl. lia.
  - unfold reader_inv in Hrd. destruct (rd c).
    1-4: destruct Hrd as (-> & _ & -> & _); by split.
    + destruct Hrd as (-> & _ & -> & _). by split.
    + destruct Hrd as (e & _ & He). destruct (close_flags e).
      * destruct He as (-> & -> & _). by split.
      * destruct He as (-> & -> & _). by split.
  - apply Hc.
  - intros Hdone. unfold reader_inv in Hrd. rewrite Hdone in Hrd.
    destruct Hrd as (e & Hf & He). exists e. split; [done|].
    destruct (close_flags e).
    + by destruct He as (_ & ? & ?).
    + by destruct He as (_ & ? & ?).
Qed.

Lemma read_failures_app lg1 lg2 :
  read_failures (lg1 ++ lg2) = read_failures lg1 ++ read_failures lg2.
Proof. apply omap_app. Qed.

(** After a read of connection [p] failed with an error that is neither
    [io.EOF] nor a [*net.OpError], its close signal is never closed and its
    close callback is never called. *)
Lemma other_read_error_is_final s p c :
  reachable l0 a0 s →
  heap s !! p = Some c →
  last (read_failures (conn_log p (log (wld s)))) = Some ErrOther →
  ∀ s', rtc step s s' →
    close_signals (conn_log p (log (wld s'))) = []
    ∧ close_callbacks (conn_log p (log (wld s'))) = [].
Proof.
  intros Hr Hp Hlast s' Hsteps.
  pose proof (reachable_inv s' (reachable_steps _ _ Hr Hsteps)) as [Hc _ _ _ _].
  destruct (steps_heap _ _ _ _ Hsteps Hp) as [c' Hp'].
  destruct (steps_log _ _ Hsteps) as [evs Hevs].
  pose proof (ci_reader _ _ _ _ (ic_conn _ Hc _ _ Hp')) as Hrd.
  assert (Hlast' : last (read_failures (conn_log p (log (wld s')))) = Some ErrOther).
  { rewrite Hevs, conn_log_app, read_failures_app.
    destruct (read_failures (conn_log p (log (wld s)))) as [|x xs] eqn:E;
      [done|].
    rewrite last_app. by rewrite Hlast. }
  unfold reader_inv in Hrd. destruct (rd c').
  1-3: destruct Hrd as (_ & Hf & _); by rewrite Hf in Hlast'.
  - destruct Hrd as (_ & (e & Hf & Hfl) & _). rewrite Hf in Hlast'.
    simpl in Hlast'. by simplify_eq.
  - destruct Hrd as (_ & (e & Hf & Hfl) & _). rewrite Hf in Hlast'.
    simpl in Hlast'. by simplify_eq.
  - destruct Hrd as (e & Hf & He). rewrite Hf in Hlast'.
    simpl in Hlast'. simplify_eq. simpl in He. by destruct He as (_ & ? & ?).
Qed.

(** ** The inbound queue *)

(** C8.  For every connection of every reachable state: the reader never
    took a value from [output] (its [case <-conn.output] is never ready,
    because the only goroutine that sends on [output] is the reader itself,
    and it is not at the select while it is parked in the send); every
    frame whose send completed was taken by the dispatcher and has been
    passed to [handelReceive], except the one the dispatcher holds right
    now, which its next step passes on; and the frames passed to
    [handelReceive] are the frames read, oldest first, in the order read,
    the ones not yet passed being the dispatcher's and then the one parked
    in the queue. *)
Theorem reader_only_produces s p c :
  reachable l0 a0 s →
  heap s !! p = Some c →
  let lg := conn_log p (log (wld s)) in
  drains lg = []
  ∧ (rd c = RSelect → chan_recv (output (obj c)) = None)
  ∧ frames_sent lg = in_dispatch c ++ frames_handled lg
  ∧ frames_read lg =
      rev (ch_sendq (output (obj c))).*2 ++ in_dispatch c ++ frames_handled lg
  ∧ (length (ch_sendq (output (obj c))) ≤ 1)%nat
  ∧ (∀ m, dp c = DHandle m →
       ∃ s', step s s'
         ∧ conn_log p (log (wld s')) =
             match receiveCallback l0 with
             | Some _ => [EvReceiveCallback p m]
             | None => []
             end ++ EvHandelReceive p m :: lg).
Proof.
  intros Hr Hp lg. pose proof (reachable_inv s Hr) as [Hc _ _ _ _].
  pose proof (ic_conn _ Hc _ _ Hp) as [Hin Hout Hpark Hrd Hread Hsent Hrecv Hdr].
  fold lg in Hread, Hsent, Hrecv, Hdr.
  split_and!; try done.
  - intros Hsel. rewrite Hsel in Hpark. simpl in Hpark.
    unfold chan_recv. by rewrite Hpark, Hout.
  - unfold parked_inv in Hpark. destruct (rd c);
      try (rewrite Hpark; simpl; lia).
    destruct Hpark as [bt ->]. simpl. lia.
  - intros m Hm. eexists. split.
    + eapply (step_conn s p c None); [done|]. by apply disp_handle.
    + simpl. unfold handelReceive. simpl.
      rewrite (ic_receive_cb _ Hc).
      destruct (receiveCallback l0); simpl; by rewrite Nat.eqb_refl.
Qed.

(** ** What the reader does with a failed read *)

Lemma step_reader s p c w' c' :
  heap s !! p = Some c →
  conn_step p (wld s, c) None (w', c') →
  step s (with_conn s p (w', c')).
Proof. intros Hp Hstep. exact (step_conn s p c None w' c' Hp Hstep). Qed.

Lemma with_conn_with_conn s p wc wc' :
  with_conn (with_conn s p wc) p wc' = with_conn s p wc'.
Proof. unfold with_conn. simpl. by rewrite list_insert_insert_eq. Qed.

Lemma with_conn_lookup s p c wc :
  heap s !! p = Some c → heap (with_conn s p wc) !! p = Some wc.2.
Proof.
  intros Hp. simpl. apply list_lookup_insert_eq. by eapply lookup_lt_Some.
Qed.

(** [handelReadClose] on an open close signal: what it computes, and the
    two steps of the reader that do it. *)
Lemma handelReadClose_open p sv cl w c :
  ch_closed (waitConn (obj c)) = false →
  handelReadClose p sv cl (w, c) =
    (call_closeCallback p sv cl (emit (EvCloseSignal p) w),
     set_rd RDone (set_waitConn (Chan true (ch_sendq (waitConn (obj c)))) c)).
Proof.
  intros Hopen. unfold handelReadClose, close_waitConn, chan_close. simpl.
  by rewrite Hopen.
Qed.

Lemma handelReadClose_steps s p c sv cl :
  heap s !! p = Some c →
  rd c = RClose sv cl →
  ch_closed (waitConn (obj c)) = false →
  rtc step s (with_conn s p (handelReadClose p sv cl (wld s, c))).
Proof.
  intros Hp Hrd Hopen. rewrite handelReadClose_open by done.
  pose proof (reader_close p (wld s) c sv cl Hrd) as H1.
  unfold close_waitConn, chan_close in H1. simpl in H1. rewrite Hopen in H1.
  eapply rtc_l; [exact (step_reader s p c _ _ Hp H1)|].
  eapply rtc_l; [|apply rtc_refl].
  match goal with
  | |- step (with_conn s p ?wc) _ =>
      pose proof (step_reader (with_conn s p wc) p wc.2 _ _
        (with_conn_lookup s p c wc Hp)
        (reader_callback p wc.1 wc.2 sv cl eq_refl)) as Hcb
  end.
  by rewrite with_conn_with_conn in Hcb.
Qed.

(** C2.  Let the reader of a connection stand in [Read], and let the read
    fail with [e].  The reader then returns after steps of its own that do
    the following.  [io.EOF]: it closes the close signal and calls the
    close callback with [isServer = false], [isClient = true].  A
    [*net.OpError]: it closes the close signal and calls the callback with
    [isServer = true], [isClient = false].  Any other error: it logs the
    error and returns; the close signal stays open and the callback is not
    called.  (The callback is called when the slot holds one; after
    [NewTcpServer] it does.) *)
Theorem read_errors_classified s p c e :
  reachable l0 a0 s →
  heap s !! p = Some c →
  rd c = RRead →
  let wc' := LoopRead_failed p e (wld s, c) in
  let called sv cl :=
    match closeCallback l0 with
    | Some _ => [EvCloseCallback p sv cl]
    | None => []
    end in
  let applied sv cl :=
    match closeCallback l0 with
    | Some f => f p sv cl (app (wld s))
    | None => app (wld s)
    end in
  rtc step s (with_conn s p wc')
  ∧ rd wc'.2 = RDone
  ∧ match e with
    | ErrEOF =>
        ch_closed (waitConn (obj wc'.2)) = true
        ∧ log wc'.1 =
            called false true ++
            EvCloseSignal p :: EvRead p (ReadFail ErrEOF) :: log (wld s)
        ∧ app wc'.1 = applied false true
    | ErrOpError =>
        ch_closed (waitConn (obj wc'.2)) = true
        ∧ log wc'.1 =
            called true false ++
            EvCloseSignal p :: EvRead p (ReadFail ErrOpError) :: log (wld s)
        ∧ app wc'.1 = applied true false
    | ErrOther =>
        waitConn (obj wc'.2) = waitConn (obj c)
        ∧ log wc'.1 =
            EvLogErr "read" :: EvRead p (ReadFail ErrOther) :: log (wld s)
        ∧ app wc'.1 = app (wld s)
    end.
Proof.
  intros Hr Hp Hrd wc' called applied.
  pose proof (reachable_inv s Hr) as [Hc _ _ _ _].
  pose proof (ci_reader _ _ _ _ (ic_conn _ Hc _ _ Hp)) as Hri.
  unfold reader_inv in Hri. rewrite Hrd in Hri. destruct Hri as (Hopen & _).
  pose proof (ic_close_cb _ Hc) as Hcc.
  assert (Hfail : step s (with_conn s p
            ((read_failed e (emit (EvRead p (ReadFail e)) (wld s))).1,
             set_rd (read_failed e (wld s)).2 c))).
  { apply (step_reader s p c); [done|]. by apply reader_read_err. }
  assert (Hsteps : ∀ sv cl,
            rtc step
              (with_conn s p
                 (emit (EvRead p (ReadFail e)) (wld s), set_rd (RClose sv cl) c))
              (with_conn s p
                 (handelReadClose p sv cl
                    (emit (EvRead p (ReadFail e)) (wld s),
                     set_rd (RClose sv cl) c)))).
  { intros sv cl.
    pose proof (handelReadClose_steps
      (with_conn s p
         (emit (EvRead p (ReadFail e)) (wld s), set_rd (RClose sv cl) c))
      p (set_rd (RClose sv cl) c) sv cl) as Hs.
    rewrite with_conn_with_conn in Hs. apply Hs; [|done|done].
    by eapply with_conn_lookup. }
  subst wc' called applied. unfold LoopRead_failed.
  destruct e; simpl in *.
  - split; [by eapply rtc_l; [exact Hfail|apply Hsteps]|].
    rewrite handelReadClose_open by done. simpl. split; [done|].
    unfold call_closeCallback. simpl. rewrite Hcc.
    by destruct (closeCallback l0).
  - split; [by eapply rtc_l; [exact Hfail|apply Hsteps]|].
    rewrite handelReadClose_open by done. simpl. split; [done|].
    unfold call_closeCallback. simpl. rewrite Hcc.
    by destruct (closeCallback l0).
  - split; [by apply rtc_once|done].
Qed.

(** ** The sender and the mutex *)

Lemma leaked_step p s s' : inv l0 s → step s s' → leaked p s → leaked p s'.
Proof.
  intros [_ [Hsd Hacc] _ _ _] Hstep [Hlock Hpc].
  inversion Hstep; subst; clear Hstep.
  - (* step_conn *)
    pose proof (conn_step_lock _ _ _ _ _ _ H0) as [Hm Hl].
    assert (p0 < length (heap s))%nat as Hp by (by eapply lookup_lt_Some).
    assert (Hsame : lock (srv w') = lock (srv (wld s))).
    { destruct Hl as [?|[[Hfree _]|(m' & Hm' & _)]]; [done|congruence|].
      pose proof (Hsd _ _ _ H Hm') as Hown.
      rewrite Hlock in Hown. injection Hown as ->. by destruct (Hpc _ _ H Hm'). }
    split; simpl; [rewrite srv_after_label; congruence|].
    intros cq m Hq Hlocked. destruct (decide (p = p0)) as [->|Hne].
    + rewrite list_lookup_insert_eq in Hq by done. simplify_eq.
      destruct (Hm _ Hlocked) as [[Hfree _]|[Hold _]]; [congruence|].
      by eapply Hpc.
    + rewrite list_lookup_insert_ne in Hq by done. by eapply Hpc.
  - by split.
  - by split.
  - simpl in *. congruence.
  - pose proof (Hacc _ H). congruence.
  - split; simpl; rewrite ?srv_emits; done.
  - split; simpl; [done|].
    intros cq m Hq. destruct (decide (p = p0)) as [->|Hne].
    + rewrite list_lookup_insert_eq in Hq by (by eapply lookup_lt_Some).
      simplify_eq. simpl. by eapply Hpc.
    + rewrite list_lookup_insert_ne in Hq by done. by eapply Hpc.
  - by split.
  - simpl in *. congruence.
  - simpl in *. congruence.
Qed.

Lemma leaked_steps p s s' : inv l0 s → rtc step s s' → leaked p s → leaked p s'.
Proof.
  intros Hinv Hsteps. induction Hsteps as [|s1 s2 s3 H12 _ IH]; [done|].
  intros Hl. apply IH; [by eapply inv_step|by eapply leaked_step].
Qed.

(** C7.  Let the sender of a connection have taken an item from [input]
    and then the mutex, and let [stop] be nonzero.  The rest of the
    iteration is one step that writes nothing to the socket, logs nothing
    and leaves the world as it is, the mutex still held by this sender, who
    is back at the select.  No later step of any goroutine releases the
    mutex. *)
Theorem stopped_sender_keeps_the_lock s p c msg werr :
  reachable l0 a0 s →
  heap s !! p = Some c →
  sd c = SLocked msg →
  stop (srv (wld s)) ≠ 0 →
  let s' := with_conn s p (ConsumeInput_locked p msg werr (wld s), set_sd SSelect c) in
  step s s'
  ∧ ConsumeInput_locked p msg werr (wld s) = wld s
  ∧ lock (srv (wld s')) = Some (OwnSender p)
  ∧ (∀ c', heap s' !! p = Some c' → sd c' = SSelect)
  ∧ (∀ s'', rtc step s' s'' → lock (srv (wld s'')) = Some (OwnSender p)).
Proof.
  intros Hr Hp Hsd Hstop s'.
  pose proof (reachable_inv s Hr) as Hinv.
  pose proof (il_sender _ (inv_l _ Hinv) _ _ _ Hp Hsd) as Hlock.
  assert (Hnoop : ConsumeInput_locked p msg werr (wld s) = wld s).
  { unfold ConsumeInput_locked. by rewrite decide_True. }
  assert (Hstep : step s s').
  { apply (step_reader s p c); [done|]. by apply sender_locked. }
  assert (Hleak : leaked p s').
  { split; simpl; [by rewrite Hnoop|].
    intros c' m Hc'. rewrite list_lookup_insert_eq in Hc'
      by (by eapply lookup_lt_Some).
    by simplify_eq. }
  split_and!; try done.
  - simpl. by rewrite Hnoop.
  - intros c' Hc'. simpl in Hc'.
    rewrite list_lookup_insert_eq in Hc' by (by eapply lookup_lt_Some).
    by simplify_eq.
  - intros s'' Hsteps.
    eapply (leaked_steps p s' s''); [|done|done].
    eapply inv_step; [exact Hstep|done].
Qed.

(** ** Shutdown *)

Lemma listener_closes_app lg1 lg2 :
  listener_closes (lg1 ++ lg2) = (listener_closes lg1 + listener_closes lg2)%nat.
Proof. unfold listener_closes. by rewrite omap_app, length_app. Qed.

Lemma sock_closes_app p lg1 lg2 :
  sock_closes p (lg1 ++ lg2) = (sock_closes p lg1 + sock_closes p lg2)%nat.
Proof. unfold sock_closes. by rewrite omap_app, length_app. Qed.

Lemma stop_sets_app lg1 lg2 : stop_sets (lg1 ++ lg2) = stop_sets lg1 ++ stop_sets lg2.
Proof. apply omap_app. Qed.

Lemma shutdown_returns_app lg1 lg2 :
  shutdown_returns (lg1 ++ lg2) = shutdown_returns lg1 ++ shutdown_returns lg2.
Proof. apply omap_app. Qed.

(** The four counts read only what [shutdown_log] keeps. *)
Lemma listener_closes_shutdown_log lg :
  listener_closes lg = listener_closes (shutdown_log lg).
Proof.
  unfold listener_closes. induction lg as [|e lg IH]; [done|].
  destruct e; simpl; first [exact IH | f_equal; exact IH].
Qed.

Lemma sock_closes_shutdown_log p lg :
  sock_closes p lg = sock_closes p (shutdown_log lg).
Proof.
  unfold sock_closes. induction lg as [|e lg IH]; [done|].
  destruct e; simpl; try exact IH.
  destruct (Nat.eqb _ _); simpl; first [exact IH | f_equal; exact IH].
Qed.

Lemma stop_sets_shutdown_log lg : stop_sets lg = stop_sets (shutdown_log lg).
Proof.
  unfold stop_sets. induction lg as [|e lg IH]; [done|].
  destruct e; simpl; first [exact IH | f_equal; exact IH].
Qed.

Lemma shutdown_returns_shutdown_log lg :
  shutdown_returns lg = shutdown_returns (shutdown_log lg).
Proof.
  unfold shutdown_returns. induction lg as [|e lg IH]; [done|].
  destruct e; simpl; first [exact IH | f_equal; exact IH].
Qed.

Lemma listener_closes_returns gs : listener_closes (EvShutdownReturn <$> gs) = 0%nat.
Proof. induction gs; simpl; done. Qed.

Lemma sock_closes_returns p gs : sock_closes p (EvShutdownReturn <$> gs) = 0%nat.
Proof. induction gs; simpl; done. Qed.

Lemma stop_sets_returns gs : stop_sets (EvShutdownReturn <$> gs) = [].
Proof. induction gs; simpl; done. Qed.

Lemma shutdown_returns_returns gs : shutdown_returns (EvShutdownReturn <$> gs) = gs.
Proof. induction gs as [|g gs IH]; simpl; [done|]. f_equal. exact IH. Qed.

Lemma listener_closes_socks ps : listener_closes (rev (EvSockClose <$> ps)) = 0%nat.
Proof.
  induction ps as [|q ps IH]; [done|].
  rewrite fmap_cons. simpl rev. rewrite listener_closes_app, IH. done.
Qed.

Lemma stop_sets_socks ps : stop_sets (rev (EvSockClose <$> ps)) = [].
Proof.
  induction ps as [|q ps IH]; [done|].
  rewrite fmap_cons. simpl rev. rewrite stop_sets_app, IH. done.
Qed.

Lemma shutdown_returns_socks ps : shutdown_returns (rev (EvSockClose <$> ps)) = [].
Proof.
  induction ps as [|q ps IH]; [done|].
  rewrite fmap_cons. simpl rev. rewrite shutdown_returns_app, IH. done.
Qed.

Lemma sock_closes_socks_notin p ps :
  p ∉ ps → sock_closes p (rev (EvSockClose <$> ps)) = 0%nat.
Proof.
  induction ps as [|q ps IH]; [done|]. intros Hn.
  apply not_elem_of_cons in Hn as [Hne Hn].
  rewrite fmap_cons. simpl rev. rewrite sock_closes_app, IH by done.
  unfold sock_closes. simpl.
  destruct (Nat.eqb_spec q p); [congruence|done].
Qed.

Lemma sock_closes_socks_in p ps :
  NoDup ps → p ∈ ps → sock_closes p (rev (EvSockClose <$> ps)) = 1%nat.
Proof.
  induction 1 as [|q ps Hq Hnd IH]; [by intros ?%elem_of_nil|].
  intros Hin. rewrite fmap_cons. simpl rev. rewrite sock_closes_app.
  unfold sock_closes at 2. simpl.
  apply elem_of_cons in Hin as [->|Hin].
  - rewrite sock_closes_socks_notin by done. by rewrite Nat.eqb_refl.
  - rewrite IH by done.
    destruct (Nat.eqb_spec q p); [congruence|done].
Qed.

Lemma range_conns_NoDup s : inv_registry s → NoDup (range_conns (srv (wld s))).
Proof.
  intros [_ Hinj]. unfold range_conns.
  apply NoDup_fmap_2_strong; [|apply NoDup_map_to_list].
  intros [i p] [j q] Hi Hj Heq. simpl in Heq. subst q.
  apply elem_of_map_to_list in Hi, Hj. f_equal. by eapply Hinj.
Qed.

Lemma elem_of_range_conns (l : tcpServer A) p :
  p ∈ range_conns l ↔ ∃ i, conns l !! i = Some p.
Proof.
  unfold range_conns. rewrite list_elem_of_fmap. split.
  - intros [[i q] [-> Hin]]. exists i. by apply elem_of_map_to_list.
  - intros [i Hi]. exists (i, p). split; [done|]. by apply elem_of_map_to_list.
Qed.

(** The two steps of a [Shutdown] that finds the mutex free are the
    function [Shutdown]. *)
Lemma Shutdown_steps s g :
  lock (srv (wld s)) = None →
  rtc step s {| wld := Shutdown g (wld s); heap := heap s; acc := acc s;
                callers := callers s |}.
Proof.
  intros Hfree.
  eapply rtc_l; [by apply (step_shutdown_lock s g)|].
  eapply rtc_l; [|apply rtc_refl].
  exact (step_shutdown_locked
    {| wld := with_srv (set_lock (Some (OwnShutdown g))) (wld s);
       heap := heap s; acc := acc s; callers := callers s |} g eq_refl).
Qed.

Lemma Shutdown_stop g (w : world A) : stop (srv (Shutdown g w)) ≠ 0.
Proof.
  unfold Shutdown. simpl.
  destruct (srv_Shutdown_locked g (with_srv (set_lock (Some (OwnShutdown g))) w))
    as [(_ & _ & _ & _ & _ & Hs)|[Hs ->]]; [|done].
  rewrite Hs. simpl. unfold Shutdown_locked in Hs |- *. simpl in *.
  destruct (decide (stop (srv w) ≠ 0)); [done|].
  exfalso. revert Hs. unfold close_listener, close_conns. simpl.
  rewrite srv_emits. simpl. destruct (listener (srv w)); simpl;
    rewrite srv_emits; simpl; lia.
Qed.

Lemma Shutdown_lock g (w : world A) : lock (srv (Shutdown g w)) = None.
Proof. done. Qed.

Lemma set_lock_id (l : tcpServer A) o :
  lock l = None → set_lock None (set_lock o l) = l.
Proof. destruct l. simpl. by intros ->. Qed.

Lemma first_shutdown_counts later ps g :
  listener_closes ((EvShutdownReturn <$> later) ++ first_shutdown ps g) = 1%nat
  ∧ stop_sets ((EvShutdownReturn <$> later) ++ first_shutdown ps g) = [g]
  ∧ shutdown_returns ((EvShutdownReturn <$> later) ++ first_shutdown ps g)
      = later ++ [g]
  ∧ ∀ p, sock_closes p ((EvShutdownReturn <$> later) ++ first_shutdown ps g)
      = sock_closes p (rev (EvSockClose <$> ps)).
Proof.
  unfold first_shutdown.
  change (EvShutdownReturn g :: EvListenerClose :: rev (EvSockClose <$> ps)
            ++ [EvStopSet g])
    with ([EvShutdownReturn g; EvListenerClose] ++ rev (EvSockClose <$> ps)
            ++ [EvStopSet g]).
  split_and!.
  - rewrite !listener_closes_app, listener_closes_returns, listener_closes_socks.
    done.
  - rewrite !stop_sets_app, stop_sets_returns, stop_sets_socks. done.
  - rewrite !shutdown_returns_app, shutdown_returns_returns,
      shutdown_returns_socks. done.
  - intros p. rewrite !sock_closes_app, sock_closes_returns. simpl.
    change (sock_closes p [EvStopSet g]) with 0%nat. lia.
Qed.

(** [stop] is 0 until a [Shutdown] has set it, and 2 from then on. *)
Lemma stop_values s :
  reachable l0 a0 s →
  (stop (srv (wld s)) = 0 ∧ stop_sets (log (wld s)) = []
   ∧ shutdown_returns (log (wld s)) = [])
  ∨ (stop (srv (wld s)) = 2
     ∧ ∃ g later, stop_sets (log (wld s)) = [g]
         ∧ shutdown_returns (log (wld s)) = later ++ [g]).
Proof.
  intros Hr. destruct (inv_s _ (reachable_inv s Hr))
    as [[Hs Hlog]|(Hs & g & later & Hlog)].
  - left. rewrite stop_sets_shutdown_log, shutdown_returns_shutdown_log, Hlog.
    done.
  - right. split; [done|]. exists g, later.
    rewrite stop_sets_shutdown_log, shutdown_returns_shutdown_log, Hlog.
    destruct (first_shutdown_counts later (range_conns (srv (wld s))) g)
      as (_ & -> & -> & _). done.
Qed.

(** A step leaves [stop] alone, unless it is the body of a [Shutdown] that
    holds the mutex and finds [stop] at 0. *)
Lemma step_stop s s' :
  step s s' →
  stop (srv (wld s')) = stop (srv (wld s))
  ∨ (stop (srv (wld s)) = 0 ∧ stop (srv (wld s')) = 2
     ∧ ∃ g, lock (srv (wld s)) = Some (OwnShutdown g)
         ∧ wld s' = emit (EvShutdownReturn g)
                      (with_srv (set_lock None) (Shutdown_locked g (wld s)))).
Proof.
  intros Hstep. inversion Hstep; subst; clear Hstep; simpl.
  - pose proof (conn_step_frame _ _ _ _ _ _ H0) as ((_ & _ & _ & _ & _ & Hs) & _).
    left. by rewrite srv_after_label.
  - by left.
  - by left.
  - by left.
  - left. unfold accept_locked. by destruct (decide _).
  - left. by rewrite srv_emits.
  - by left.
  - by left.
  - by left.
  - destruct (srv_Shutdown_locked g (wld s)) as [(_ & _ & _ & _ & _ & Hs)|[Hs Hsrv]].
    + by left.
    + right. rewrite Hsrv. simpl. eauto.
Qed.

Lemma steps_stop_le s s' :
  rtc step s s' → stop (srv (wld s)) ≤ stop (srv (wld s')).
Proof.
  induction 1 as [|s1 s2 s3 H12 _ IH]; [lia|].
  destruct (step_stop _ _ H12) as [Heq|(H0 & H2 & _)]; lia.
Qed.

(** The second of two calls in a row. *)
Lemma Shutdown_twice g g' (w : world A) :
  srv (Shutdown g' (Shutdown g w)) = srv (Shutdown g w)
  ∧ app (Shutdown g' (Shutdown g w)) = app (Shutdown g w)
  ∧ log (Shutdown g' (Shutdown g w)) = EvShutdownReturn g' :: log (Shutdown g w).
Proof.
  pose proof (Shutdown_stop g w) as Hs.
  pose proof (Shutdown_lock g w) as Hl.
  set (w1 := Shutdown g w) in *.
  change (Shutdown g' w1) with
    (emit (EvShutdownReturn g')
       (with_srv (set_lock None)
          (Shutdown_locked g' (with_srv (set_lock (Some (OwnShutdown g'))) w1)))).
  rewrite Shutdown_locked_stopped by done. simpl.
  by rewrite set_lock_id.
Qed.

(** C5.  A [Shutdown] on a server whose [stop] is nonzero leaves the world
    as it is; so the second of two calls in a row changes no field of the
    server and adds nothing to the log but its own return.  In every
    reachable state, however many calls to [Shutdown] were made, and
    however they interleaved, the listener and the socket of each
    connection were closed at most once; and once a call has returned, the
    listener and the socket of every registered connection were closed
    exactly once, and no other socket was closed. *)
Theorem Shutdown_is_idempotent s g g' :
  reachable l0 a0 s →
  let lg := log (wld s) in
  (stop (srv (wld s)) ≠ 0 → Shutdown_locked g (wld s) = wld s)
  ∧ (lock (srv (wld s)) = None →
     rtc step s {| wld := Shutdown g (wld s); heap := heap s; acc := acc s;
                   callers := callers s |})
  ∧ (srv (Shutdown g' (Shutdown g (wld s))) = srv (Shutdown g (wld s))
     ∧ app (Shutdown g' (Shutdown g (wld s))) = app (Shutdown g (wld s))
     ∧ log (Shutdown g' (Shutdown g (wld s)))
         = EvShutdownReturn g' :: log (Shutdown g (wld s)))
  ∧ (listener_closes lg ≤ 1)%nat
  ∧ (∀ p, (sock_closes p lg ≤ 1)%nat)
  ∧ (shutdown_returns lg ≠ [] →
     stop (srv (wld s)) = 2
     ∧ listener_closes lg = 1%nat
     ∧ (∀ i p, conns (srv (wld s)) !! i = Some p → sock_closes p lg = 1%nat)
     ∧ (∀ p, (∀ i, conns (srv (wld s)) !! i ≠ Some p) → sock_closes p lg = 0%nat)).
Proof.
  intros Hr lg. subst lg. pose proof (reachable_inv s Hr) as Hinv.
  pose proof (range_conns_NoDup s (inv_r _ Hinv)) as Hnd.
  assert (Hsocks : ∀ p, (sock_closes p (rev (EvSockClose <$>
            range_conns (srv (wld s)))) ≤ 1)%nat).
  { intros p. destruct (decide (p ∈ range_conns (srv (wld s)))).
    - by rewrite sock_closes_socks_in.
    - rewrite sock_closes_socks_notin by done. lia. }
  split; [|split; [|split; [|split; [|split]]]].
  - apply Shutdown_locked_stopped.
  - apply Shutdown_steps.
  - apply Shutdown_twice.
  - rewrite listener_closes_shutdown_log.
    destruct (inv_s _ Hinv) as [[_ ->]|(_ & g0 & later & ->)];
      [unfold listener_closes; simpl; lia|].
    destruct (first_shutdown_counts later (range_conns (srv (wld s))) g0)
      as (-> & _). done.
  - intros p. rewrite sock_closes_shutdown_log.
    destruct (inv_s _ Hinv) as [[_ ->]|(_ & g0 & later & ->)];
      [unfold sock_closes; simpl; lia|].
    destruct (first_shutdown_counts later (range_conns (srv (wld s))) g0)
      as (_ & _ & _ & ->). apply Hsocks.
  - intros Hret.
    destruct (stop_values s Hr) as [(_ & _ & Hnone)|[Hs _]]; [done|].
    split; [done|].
    rewrite listener_closes_shutdown_log.
    destruct (inv_s _ Hinv) as [[Hs0 _]|(_ & g0 & later & Hlog)]; [lia|].
    destruct (first_shutdown_counts later (range_conns (srv (wld s))) g0)
      as (Hl & _ & _ & Hsc).
    rewrite Hlog. split; [done|]. split.
    + intros i p Hp. rewrite sock_closes_shutdown_log, Hlog, Hsc.
      apply sock_closes_socks_in; [done|]. apply elem_of_range_conns. eauto.
    + intros p Hp. rewrite sock_closes_shutdown_log, Hlog, Hsc.
      apply sock_closes_socks_notin. rewrite elem_of_range_conns.
      intros [i Hi]. by eapply Hp.
Qed.

(** C6, amended.  [stop] holds 0 or 2 and nothing else.  No step lowers
    it, and the only step that changes it is the body of a [Shutdown] that
    holds the mutex and finds 0: it writes 2.  This happens at most once
    in a run, and it has happened once any [Shutdown] has returned; the
    call that did it is the first one that returned. *)
Theorem stop_moves_once_from_0_to_2 s :
  reachable l0 a0 s →
  let lg := log (wld s) in
  (stop (srv (wld s)) = 0 ∨ stop (srv (wld s)) = 2)
  ∧ (stop (srv (wld s)) = 0 ↔ stop_sets lg = [])
  ∧ (length (stop_sets lg) ≤ 1)%nat
  ∧ (shutdown_returns lg ≠ [] →
     ∃ g, stop_sets lg = [g] ∧ last (shutdown_returns lg) = Some g)
  ∧ (∀ s', step s s' →
     stop (srv (wld s)) ≤ stop (srv (wld s'))
     ∧ (stop (srv (wld s')) ≠ stop (srv (wld s)) →
        stop (srv (wld s)) = 0 ∧ stop (srv (wld s')) = 2
        ∧ ∃ g, lock (srv (wld s)) = Some (OwnShutdown g)
            ∧ stop_sets (log (wld s')) = [g])).
Proof.
  intros Hr lg. subst lg.
  destruct (stop_values s Hr) as [(Hs & Hset & Hret)|(Hs & g & later & Hset & Hret)].
  - rewrite Hs, Hset, Hret.
    split; [by left|]. split; [done|]. split; [simpl; lia|]. split; [done|].
    intros s' Hstep.
    destruct (step_stop _ _ Hstep) as [Heq|(_ & H2 & g & Hlock & Hw)].
    + split; [lia|]. intros Hne. lia.
    + split; [lia|]. intros _. split; [done|]. split; [done|].
      exists g. split; [done|].
      assert (reachable l0 a0 s') as Hr' by (eapply rtc_r; eauto).
      destruct (stop_values s' Hr') as [(? & _)|(_ & g1 & later & Hset' & _)];
        [lia|].
      rewrite Hw in Hset'. simpl in Hset'.
      destruct (Shutdown_locked_running g (wld s) Hs) as (_ & _ & Hlog).
      { rewrite (ic_listener _ (inv_c _ (reachable_inv s Hr))).
        apply Hstarted. }
      rewrite Hw. simpl. rewrite Hlog.
      change (EvListenerClose :: rev (EvSockClose <$> range_conns (srv (wld s)))
                ++ EvStopSet g :: log (wld s))
        with ([EvListenerClose] ++ rev (EvSockClose <$> range_conns (srv (wld s)))
                ++ [EvStopSet g] ++ log (wld s)).
      rewrite !stop_sets_app, stop_sets_socks, Hset. done.
  - rewrite Hs, Hset, Hret.
    split; [by right|]. split; [done|]. split; [simpl; lia|]. split.
    + intros _. exists g. split; [done|]. by rewrite last_snoc.
    + intros s' Hstep.
      destruct (step_stop _ _ Hstep) as [Heq|(H0 & _)]; [|lia].
      split; [lia|]. intros Hne. lia.
Qed.

(** ** Send and Broadcast *)

Lemma lookup_resume_caller_ne g g' (cs : gmap gid caller) :
  g ≠ g' → resume_caller g' cs !! g = cs !! g.
Proof.
  intros Hne. unfold resume_caller.
  destruct (cs !! g') as [[[|? ?] []]|]; try done.
  by rewrite lookup_insert_ne.
Qed.

(** The only step that lets a parked caller go on is the receive of the
    sender of the connection it sends to. *)
Lemma parked_caller_step s s' g p v rest :
  inv l0 s → step s s' →
  callers s !! g = Some (Caller ((p, v) :: rest) true) →
  callers s' !! g = Some (Caller ((p, v) :: rest) true)
  ∨ (∃ c c', heap s !! p = Some c ∧ sd c = SSelect
       ∧ heap s' !! p = Some c' ∧ sd c' = SLock v
       ∧ callers s' !! g = Some (Caller rest false)).
Proof.
  intros Hinv Hstep Hg.
  inversion Hstep; subst; clear Hstep; simpl; try (by left).
  - (* step_conn *)
    destruct (conn_step_input _ _ _ _ _ _ H0)
      as [[-> _]|(g' & v' & q & -> & Hsel & Hlk & Hq & _)]; [by left|].
    simpl. destruct (decide (g = g')) as [<-|Hne];
      [|left; by rewrite lookup_resume_caller_ne].
    destruct (ik_parked _ (inv_k _ Hinv) p0 c g v' H) as [rest' Hg'];
      [rewrite Hq; left|].
    rewrite Hg in Hg'. injection Hg' as <- <- <-.
    right. exists c, c'. split; [done|]. split; [done|].
    split; [apply list_lookup_insert_eq; by eapply lookup_lt_Some|].
    split; [done|].
    unfold resume_caller. rewrite Hg. apply lookup_insert_eq.
  - left. rewrite lookup_insert_ne; [done|]. congruence.
  - left. rewrite lookup_insert_ne; [done|]. congruence.
  - left. rewrite lookup_insert_ne; [done|]. congruence.
Qed.

Lemma stranded_step g p v rest s s' :
  inv l0 s → step s s' →
  stranded g p (Caller ((p, v) :: rest) true) s →
  stranded g p (Caller ((p, v) :: rest) true) s'.
Proof.
  intros Hinv Hstep [Hg (c & Hc & Hdone)]. split.
  - destruct (parked_caller_step _ _ _ _ _ _ Hinv Hstep Hg)
      as [?|(c1 & c2 & Hc1 & Hsel & _)]; [done|].
    rewrite Hc in Hc1. injection Hc1 as <-. congruence.
  - inversion Hstep; subst; clear Hstep; simpl; eauto.
    + destruct (decide (p = p0)) as [<-|Hne].
      * rewrite Hc in H. injection H as <-.
        destruct (conn_step_sd_heap _ _ _ _ _ _ H0 Hdone) as [Hsd _].
        exists c'. split; [|done].
        apply list_lookup_insert_eq. by eapply lookup_lt_Some.
      * exists c. by rewrite list_lookup_insert_ne.
    + unfold accept_locked. destruct (decide _); simpl; [eauto|].
      exists c. split; [|done]. apply lookup_app_l_Some. done.
    + destruct (decide (p = p0)) as [<-|Hne].
      * rewrite Hc in H0. injection H0 as <-.
        exists (set_input ch c). split; [|done].
        apply list_lookup_insert_eq. by eapply lookup_lt_Some.
      * exists c. by rewrite list_lookup_insert_ne.
Qed.

Lemma stranded_steps g p v rest s s' :
  inv l0 s → rtc step s s' →
  stranded g p (Caller ((p, v) :: rest) true) s →
  stranded g p (Caller ((p, v) :: rest) true) s'.
Proof.
  intros Hinv Hsteps. induction Hsteps as [|s1 s2 s3 H12 _ IH]; [done|].
  intros Hs. apply IH; [by eapply inv_step|by eapply stranded_step].
Qed.

(** C9, amended.  [Send] and [Broadcast] hand each payload over an
    unbuffered channel: the caller is parked in the send.  No send panics
    (no reachable state has a panic in its log, the queue of [input] being
    never closed).  A parked caller goes on by one step only, the receive
    of the [ConsumeInput] goroutine of that connection; so once that
    goroutine has returned, the caller stays parked for ever. *)
Theorem send_parks_until_the_sender_receives s g p v rest :
  reachable l0 a0 s →
  callers s !! g = Some (Caller ((p, v) :: rest) true) →
  panics (log (wld s)) = []
  ∧ (∃ c, heap s !! p = Some c ∧ ch_closed (input (obj c)) = false)
  ∧ (∀ s', step s s' →
     callers s' !! g = Some (Caller ((p, v) :: rest) true)
     ∨ (∃ c c', heap s !! p = Some c ∧ sd c = SSelect
          ∧ heap s' !! p = Some c' ∧ sd c' = SLock v
          ∧ callers s' !! g = Some (Caller rest false)))
  ∧ (∀ c, heap s !! p = Some c → sd c = SDone →
     ∀ s', rtc step s s' →
       callers s' !! g = Some (Caller ((p, v) :: rest) true)).
Proof.
  intros Hr Hg. pose proof (reachable_inv s Hr) as Hinv.
  split; [apply Hinv|]. split; [|split].
  - pose proof (ik_target _ (inv_k _ Hinv) _ _ _ _ Hg) as Hlt.
    apply lookup_lt_is_Some in Hlt as [c Hc]. exists c. split; [done|].
    exact (ci_input_open _ _ _ _ (ic_conn _ (inv_c _ Hinv) _ _ Hc)).
  - intros s' Hstep. by eapply parked_caller_step.
  - intros c Hc Hdone s' Hsteps.
    eapply (stranded_steps g p v rest s s'); [done|done|].
    split; eauto.
Qed.

(** ** The callbacks *)

(** A step of a connection changes the application state only through one
    of the two callbacks. *)
Lemma conn_step_app p w c lbl w' c' :
  conn_step p (w, c) lbl (w', c') →
  app w' = app w
  ∨ (∃ f sv cl, closeCallback (srv w) = Some f ∧ app w' = f p sv cl (app w))
  ∨ (∃ f m, receiveCallback (srv w) = Some f ∧ app w' = f p m (app w)).
Proof.
  intros Hstep. inversion Hstep; subst; clear Hstep; simpl.
  all: try match goal with
       | H : close_waitConn _ _ _ _ = _ |- _ =>
           unfold close_waitConn in H; simpl in H;
           destruct (chan_close _); simplify_eq; simpl
       end.
  all: rewrite ?app_emits.
  all: try (by left).
  - left. by destruct e.
  - unfold call_closeCallback.
    destruct (closeCallback (srv w)) eqn:Hcc; simpl; [|by left].
    right. left. eauto.
  - unfold handelReceive. simpl.
    destruct (receiveCallback (srv w)) eqn:Hrc; simpl; [|by left].
    right. right. eauto.
  - left. unfold ConsumeInput_locked.
    destruct (decide _); [done|]. by destruct werr.
Qed.

Lemma step_app s s' :
  inv_conns l0 s → step s s' →
  app (wld s') = app (wld s)
  ∨ (∃ f p sv cl, closeCallback l0 = Some f
       ∧ app (wld s') = f p sv cl (app (wld s)))
  ∨ (∃ f p m, receiveCallback l0 = Some f ∧ app (wld s') = f p m (app (wld s))).
Proof.
  intros Hc Hstep. inversion Hstep; subst; clear Hstep; simpl;
    rewrite ?app_emits; try (by left).
  - assert (app (after_label lbl w' (callers s)).1 = app w') as ->
      by (by destruct lbl).
    destruct (conn_step_app _ _ _ _ _ _ H0)
      as [?|[(f & sv & cl & Hf & ?)|(f & m & Hf & ?)]].
    + by left.
    + right. left. rewrite (ic_close_cb _ Hc) in Hf. eauto 10.
    + right. right. rewrite (ic_receive_cb _ Hc) in Hf. eauto 10.
  - left. unfold accept_locked. by destruct (decide _).
  - left. unfold Shutdown_locked. destruct (decide _); [done|].
    unfold close_listener, close_conns. rewrite srv_emits. simpl.
    destruct (listener _); simpl; by rewrite app_emits.
Qed.

(** With callbacks that do nothing the application state never changes. *)
Lemma noop_callbacks_keep_app s :
  (∀ f, closeCallback l0 = Some f → ∀ p sv cl a, f p sv cl a = a) →
  (∀ f, receiveCallback l0 = Some f → ∀ p bt a, f p bt a = a) →
  reachable l0 a0 s → app (wld s) = a0.
Proof.
  intros Hcc Hrc Hr. unfold reachable in Hr.
  eapply (rtc_ind_r (R := step) (λ s, reachable l0 a0 s ∧ app (wld s) = a0));
    [split; [apply rtc_refl|done]| |exact Hr].
  intros s1 s2 _ Hstep [Hr1 Happ].
  split; [by eapply rtc_r|].
  destruct (step_app s1 s2 (inv_c _ (reachable_inv s1 Hr1)) Hstep)
    as [->|[(f & p & sv & cl & Hf & ->)|(f & p & m & Hf & ->)]]; [done|..].
  - by rewrite (Hcc f Hf).
  - by rewrite (Hrc f Hf).
Qed.

End Reachable.

End ServerSpec.

Lemma started_after_listen {A} port h : started (A := A) (listen h (NewTcpServer port)).
Proof. unfold started. simpl. eauto. Qed.

(** C10.  On a server made by [NewTcpServer] (and started), with neither
    [OnReceive] nor [OnClose] called, both slots hold a function, in every
    reachable state, and that function returns the application state it
    was given.  So [handelReceive] and the callback half of
    [handelReadClose] find the slot non-nil, call it, and change nothing:
    no reachable state has an application state other than the first, or a
    panic in its log. *)
Theorem fresh_server_callbacks_are_noops {A} (port : string) (h : nat) (a0 : A)
    (s : state A) :
  reachable (listen h (NewTcpServer port)) a0 s →
  (∃ f, receiveCallback (srv (wld s)) = Some f ∧ ∀ p bt a, f p bt a = a)
  ∧ (∃ f, closeCallback (srv (wld s)) = Some f ∧ ∀ p sv cl a, f p sv cl a = a)
  ∧ (∀ p bt, handelReceive p bt (wld s) = emit (EvReceiveCallback p bt) (wld s))
  ∧ (∀ p sv cl, call_closeCallback p sv cl (wld s)
       = emit (EvCloseCallback p sv cl) (wld s))
  ∧ app (wld s) = a0
  ∧ panics (log (wld s)) = [].
Proof.
  intros Hr.
  pose proof (reachable_inv _ _ (started_after_listen port h) s Hr) as Hinv.
  pose proof (ic_receive_cb _ (inv_c _ Hinv)) as Hrc.
  pose proof (ic_close_cb _ (inv_c _ Hinv)) as Hcc.
  simpl in Hrc, Hcc.
  split; [rewrite Hrc; eauto|]. split; [rewrite Hcc; eauto|].
  split; [|split; [|split]].
  - intros p bt. unfold handelReceive. by rewrite Hrc.
  - intros p sv cl. unfold call_closeCallback. by rewrite Hcc.
  - eapply (noop_callbacks_keep_app _ _ (started_after_listen port h)); [| |done].
    + simpl. by intros f [= <-].
    + simpl. by intros f [= <-].
  - apply Hinv.
Qed.

(** ** The executable steps are steps *)

Section ExecSpec.

Context {A : Type}.

Lemma exec_conn_sound p a (w : world A) c lbl wc' :
  exec_conn p a w c = Some (lbl, wc') → conn_step p (w, c) lbl wc'.
Proof.
  unfold exec_conn. intros H.
  destruct a; repeat case_match; simplify_eq; try (by econstructor).
Qed.

Lemma exec_sound a (s s' : state A) : exec a s = Some s' → step s s'.
Proof.
  unfold exec. intros H. destruct a.
  - repeat case_match; simplify_eq.
    eapply step_conn; [done|]. by eapply exec_conn_sound.
  - repeat case_match; simplify_eq. by apply step_accept_ok.
  - destruct (acc s) eqn:E; simplify_eq. by apply step_accept_err.
  - repeat case_match; simplify_eq. by apply step_accept_lock.
  - repeat case_match; simplify_eq. by eapply step_accept_locked.
  - repeat case_match; simplify_eq. apply step_call; [done|].
    intros p v ->. simpl in *. by eapply bool_decide_eq_true_1.
  - repeat case_match; simplify_eq.
    + by eapply step_offer.
    + by eapply step_offer_panic.
  - repeat case_match; simplify_eq. by apply step_shutdown_lock.
  - repeat case_match; simplify_eq. by apply step_shutdown_locked.
Qed.

Lemma run_sound sched (s s' : state A) : run sched s = Some s' → rtc step s s'.
Proof.
  revert s. induction sched as [|a sched IH]; simpl; intros s H.
  - injection H as <-. apply rtc_refl.
  - destruct (exec a s) as [s1|] eqn:E; [|done].
    eapply rtc_l; [by eapply exec_sound|by apply IH].
Qed.

Lemma run_reachable (l0 : tcpServer A) a0 sched s :
  run sched (init l0 a0) = Some s → reachable l0 a0 s.
Proof. apply run_sound. Qed.

End ExecSpec.

(** ** The claims on the example runs *)

Section DemoSpec.

Local Open Scope nat_scope.

Lemma demo_started : started demo_server.
Proof. apply started_after_listen. Defined.

Lemma counting_started : started counting_server.
Proof. unfold started. simpl. eauto. Defined.

Lemma demo_of_reachable {A} (l0 : tcpServer A) a0 sched :
  is_Some (run sched (init l0 a0)) → reachable l0 a0 (demo_of l0 a0 sched).
Proof.
  intros [s Hs]. unfold demo_of. rewrite Hs. simpl. by eapply run_reachable.
Defined.

Lemma demo_reachable sched :
  is_Some (run sched (init demo_server ())) → reachable demo_server () (demo sched).
Proof. apply demo_of_reachable. Defined.

Ltac demo_run := apply demo_of_reachable; vm_compute; eauto.

(** C1, as stated, fails.  The read of connection 0 fails with an error
    that is neither [io.EOF] nor a [*net.OpError]; the reader logs it and
    returns.  From then on, whatever the goroutines do, the close signal of
    the connection is not closed and its close callback is not called: the
    callback is called zero times for this connection, not once. *)
Lemma close_callback_not_called_after_other_error :
  let s := demo sched_read_error in
  reachable demo_server () s
  ∧ heap s !! 0 = Some (conn0 s)
  ∧ rd (conn0 s) = RDone
  ∧ ∀ s', rtc step s s' →
      close_signals (conn_log 0 (log (wld s'))) = []
      ∧ close_callbacks (conn_log 0 (log (wld s'))) = [].
Proof.
  intros s.
  assert (Hr : reachable demo_server () s) by demo_run.
  split; [exact Hr|]. split; [by vm_compute|]. split; [by vm_compute|].
  apply (other_read_error_is_final demo_server () demo_started s 0 (conn0 s));
    [exact Hr|by vm_compute|by vm_compute].
Qed.

Lemma close_fires_at_most_once_witness :
  let s := demo_of counting_server (0, 0) sched_peer_closes in
  let lg := conn_log 0 (log (wld s)) in
  started counting_server
  ∧ reachable counting_server (0, 0) s
  ∧ heap s !! 0 = Some (conn0 s)
  ∧ (length (close_signals lg) ≤ 1)
  ∧ (length (close_callbacks lg) ≤ length (close_signals lg))
  ∧ close_signals lg = [0]
  ∧ close_callbacks lg = [(false, true)]
  ∧ app (wld s) = (0, 1).
Proof.
  intros s lg.
  assert (Hr : reachable counting_server (0, 0) s) by demo_run.
  assert (Hc : heap s !! 0 = Some (conn0 s)) by (vm_compute; reflexivity).
  destruct (close_fires_at_most_once counting_server (0, 0) counting_started
              s 0 (conn0 s) Hr Hc) as (H1 & H2 & _).
  split; [exact counting_started|]. split; [exact Hr|]. split; [exact Hc|].
  split; [exact H1|]. split; [exact H2|].
  split; [|split]; vm_compute; reflexivity.
Defined.

Lemma read_errors_classified_witness :
  let s := demo sched_reading in
  let wc' := LoopRead_failed 0 ErrEOF (wld s, conn0 s) in
  started demo_server
  ∧ reachable demo_server () s
  ∧ heap s !! 0 = Some (conn0 s)
  ∧ rd (conn0 s) = RRead
  ∧ rtc step s (with_conn s 0 wc')
  ∧ rd wc'.2 = RDone
  ∧ ch_closed (waitConn (obj wc'.2)) = true
  ∧ log wc'.1 =
      EvCloseCallback 0 false true :: EvCloseSignal 0
        :: EvRead 0 (ReadFail ErrEOF) :: log (wld s).
Proof.
  intros s wc'.
  assert (Hr : reachable demo_server () s) by demo_run.
  assert (Hc : heap s !! 0 = Some (conn0 s)) by (vm_compute; reflexivity).
  assert (Hrd : rd (conn0 s) = RRead) by (vm_compute; reflexivity).
  destruct (read_errors_classified demo_server () demo_started s 0
              (conn0 s) ErrEOF Hr Hc Hrd) as (H1 & H2 & H3 & H4 & _).
  split; [exact demo_started|]. split; [exact Hr|]. split; [exact Hc|].
  split; [exact Hrd|]. split; [exact H1|]. split; [exact H2|].
  split; [exact H3|exact H4].
Defined.

Lemma stopped_sender_keeps_the_lock_witness :
  let s := demo sched_sender_after_shutdown in
  let s' := with_conn s 0 (ConsumeInput_locked 0 hi false (wld s),
                           set_sd SSelect (conn0 s)) in
  started demo_server
  ∧ reachable demo_server () s
  ∧ heap s !! 0 = Some (conn0 s)
  ∧ sd (conn0 s) = SLocked hi
  ∧ stop (srv (wld s)) ≠ 0%Z
  ∧ step s s'
  ∧ lock (srv (wld s')) = Some (OwnSender 0)
  ∧ ∀ s'', rtc step s' s'' → lock (srv (wld s'')) = Some (OwnSender 0).
Proof.
  intros s s'.
  assert (Hr : reachable demo_server () s) by demo_run.
  assert (Hc : heap s !! 0 = Some (conn0 s)) by (vm_compute; reflexivity).
  assert (Hsd : sd (conn0 s) = SLocked hi) by (vm_compute; reflexivity).
  assert (Hstop : stop (srv (wld s)) ≠ 0%Z) by (vm_compute; discriminate).
  destruct (stopped_sender_keeps_the_lock demo_server () demo_started s 0
              (conn0 s) hi false Hr Hc Hsd Hstop) as (H1 & _ & H3 & _ & H5).
  split; [exact demo_started|]. split; [exact Hr|]. split; [exact Hc|].
  split; [exact Hsd|]. split; [exact Hstop|]. split; [exact H1|].
  split; [exact H3|exact H5].
Defined.

Lemma reader_only_produces_witness :
  let s := demo_of counting_server (0, 0) sched_two_frames in
  let lg := conn_log 0 (log (wld s)) in
  started counting_server
  ∧ reachable counting_server (0, 0) s
  ∧ heap s !! 0 = Some (conn0 s)
  ∧ drains lg = []
  ∧ frames_sent lg = in_dispatch (conn0 s) ++ frames_handled lg
  ∧ frames_read lg = [yo; hi]
  ∧ frames_handled lg = [hi]
  ∧ in_dispatch (conn0 s) = [yo]
  ∧ app (wld s) = (1, 0).
Proof.
  intros s lg.
  assert (Hr : reachable counting_server (0, 0) s) by demo_run.
  assert (Hc : heap s !! 0 = Some (conn0 s)) by (vm_compute; reflexivity).
  destruct (reader_only_produces counting_server (0, 0) counting_started s 0
              (conn0 s) Hr Hc) as (H1 & _ & H3 & _).
  split; [exact counting_started|]. split; [exact Hr|]. split; [exact Hc|].
  split; [exact H1|]. split; [exact H3|].
  split; [|split; [|split]]; vm_compute; reflexivity.
Defined.

Lemma Shutdown_is_idempotent_witness :
  let s := demo sched_shutdown_twice in
  let lg := log (wld s) in
  started demo_server
  ∧ reachable demo_server () s
  ∧ shutdown_returns lg = [4; 9]
  ∧ conns (srv (wld s)) !! 1%Z = Some 0
  ∧ listener_closes lg = 1
  ∧ sock_closes 0 lg = 1
  ∧ Shutdown_locked 3 (wld s) = wld s.
Proof.
  intros s lg.
  assert (Hr : reachable demo_server () s) by demo_run.
  assert (Hret : shutdown_returns lg = [4; 9]) by (vm_compute; reflexivity).
  assert (Hreg : conns (srv (wld s)) !! 1%Z = Some 0) by (vm_compute; reflexivity).
  destruct (Shutdown_is_idempotent demo_server () demo_started s 3 6 Hr)
    as (H1 & _ & _ & _ & _ & H6).
  destruct H6 as (Hs & Hl & Hreg1 & _).
  { fold lg. rewrite Hret. discriminate. }
  split; [exact demo_started|]. split; [exact Hr|]. split; [exact Hret|].
  split; [exact Hreg|]. split; [exact Hl|]. split; [exact (Hreg1 _ _ Hreg)|].
  apply H1. rewrite Hs. discriminate.
Defined.

(** C6, as stated, fails: [stop] is not a tri-state.  The first [Shutdown]
    writes 2 into it at once, and no run changes it twice: there is no
    state between "running" and the state that [Shutdown] enters, and none
    after it. *)
Lemma stop_has_two_values_only :
  stop (srv (wld (demo (accept_one ++ [ShutdownLock 9; ShutdownLocked 9])))) = 2%Z
  ∧ ¬ (∃ s1 s2 s3 : state unit,
         reachable demo_server () s1 ∧ rtc step s1 s2 ∧ rtc step s2 s3
         ∧ stop (srv (wld s1)) ≠ stop (srv (wld s2))
         ∧ stop (srv (wld s2)) ≠ stop (srv (wld s3))).
Proof.
  split; [by vm_compute|].
  intros (s1 & s2 & s3 & Hr1 & H12 & H23 & Hne12 & Hne23).
  assert (Hr2 : reachable demo_server () s2) by (by eapply reachable_steps).
  assert (Hr3 : reachable demo_server () s3) by (by eapply reachable_steps).
  pose proof (steps_stop_le _ _ H12). pose proof (steps_stop_le _ _ H23).
  destruct (stop_values demo_server () demo_started s1 Hr1) as [(? & _)|(? & _)];
  destruct (stop_values demo_server () demo_started s2 Hr2) as [(? & _)|(? & _)];
  destruct (stop_values demo_server () demo_started s3 Hr3) as [(? & _)|(? & _)];
  lia.
Qed.

Lemma stop_moves_once_from_0_to_2_witness :
  let s := demo sched_shutdown_twice in
  let lg := log (wld s) in
  started demo_server
  ∧ reachable demo_server () s
  ∧ stop (srv (wld s)) = 2%Z
  ∧ stop_sets lg = [9]
  ∧ (length (stop_sets lg) ≤ 1)
  ∧ ∃ g, stop_sets lg = [g] ∧ last (shutdown_returns lg) = Some g.
Proof.
  intros s lg.
  assert (Hr : reachable demo_server () s) by demo_run.
  destruct (stop_moves_once_from_0_to_2 demo_server () demo_started s Hr)
    as (_ & _ & H3 & H4 & _).
  split; [exact demo_started|]. split; [exact Hr|].
  split; [vm_compute; reflexivity|]. split; [vm_compute; reflexivity|].
  split; [exact H3|]. apply H4. vm_compute. discriminate.
Defined.

(** C9, as stated, fails.  The peer closes connection 0, the
    [ConsumeInput] goroutine of the connection returns on the close signal,
    and then goroutine 5 calls [Send(conn0, "hi")].  The send parks the
    caller, and in no continuation of the run does it return. *)
Lemma send_after_close_never_returns :
  let s := demo sched_send_after_close in
  reachable demo_server () s
  ∧ ch_closed (waitConn (obj (conn0 s))) = true
  ∧ sd (conn0 s) = SDone
  ∧ callers s !! 5 = Some (Caller [(0, hi)] true)
  ∧ ∀ s', rtc step s s' → callers s' !! 5 = Some (Caller [(0, hi)] true).
Proof.
  intros s.
  assert (Hr : reachable demo_server () s) by demo_run.
  split; [exact Hr|]. split; [by vm_compute|]. split; [by vm_compute|].
  split; [by vm_compute|].
  intros s' Hsteps.
  eapply (stranded_steps demo_server demo_started 5 0 hi [] s s');
    [by eapply reachable_inv; [apply demo_started|]|exact Hsteps|].
  split; [by vm_compute|]. exists (conn0 s). split; by vm_compute.
Qed.

Lemma send_parks_until_the_sender_receives_witness :
  let s := demo sched_send_parked in
  started demo_server
  ∧ reachable demo_server () s
  ∧ callers s !! 5 = Some (Caller [(0, hi)] true)
  ∧ panics (log (wld s)) = []
  ∧ ∀ s', step s s' →
      callers s' !! 5 = Some (Caller [(0, hi)] true)
      ∨ (∃ c c', heap s !! 0 = Some c ∧ sd c = SSelect
           ∧ heap s' !! 0 = Some c' ∧ sd c' = SLock hi
           ∧ callers s' !! 5 = Some (Caller [] false)).
Proof.
  intros s.
  assert (Hr : reachable demo_server () s) by demo_run.
  assert (Hg : callers s !! 5 = Some (Caller [(0, hi)] true))
    by (vm_compute; reflexivity).
  destruct (send_parks_until_the_sender_receives demo_server () demo_started
              s 5 0 hi [] Hr Hg) as (H1 & _ & H3 & _).
  split; [exact demo_started|]. split; [exact Hr|]. split; [exact Hg|].
  split; [exact H1|exact H3].
Defined.

Lemma fresh_server_callbacks_are_noops_witness :
  let s := demo sched_two_frames in
  reachable (listen 0 (NewTcpServer "989")) () s
  ∧ frames_received (conn_log 0 (log (wld s))) = [hi]
  ∧ handelReceive 0 yo (wld s) = emit (EvReceiveCallback 0 yo) (wld s)
  ∧ app (wld s) = ()
  ∧ panics (log (wld s)) = [].
Proof.
  intros s.
  assert (Hr : reachable (listen 0 (NewTcpServer "989")) () s) by demo_run.
  destruct (fresh_server_callbacks_are_noops "989" 0 () s Hr)
    as (_ & _ & H3 & _ & H5 & H6).
  split; [exact Hr|]. split; [vm_compute; reflexivity|].
  split; [exact (H3 0 yo)|]. split; [exact H5|exact H6].
Defined.

End DemoSpec.
